(** * formatxx: a shallow embedding of [include/formatxx/format.h]

    The header declares a non-owning string view, the abstract writer
    interface, a fixed-capacity writer, the overload set of [format_value],
    and the two variadic entry points [format] and [printf], which bind the
    call arguments into two parallel arrays and hand them to [format_impl] /
    [printf_impl].

    Conventions of the embedding:
    - a character ([CharT], i.e. [char] or [wchar_t]) is its code unit, an
      integer; [CharT(0)] is [0];
    - a data pointer is an address, an integer; memory maps addresses to
      characters, and pointer arithmetic is counted in characters;
    - [std::size_t] is 64 bits wide, its wrap-around is written [to_size_t];
    - code that mutates memory takes the memory and returns the new one. *)

From Stdlib Require Import ZArith List Bool String Ascii Lia.
Import ListNotations.
Local Open Scope Z_scope.

(** ** Characters, pointers, memory *)

Definition CharT := Z.
Definition pointer := Z.
Definition nullptr : pointer := 0.
Definition memory := pointer -> CharT.

Definition size_t_modulus : Z := 2 ^ 64.

(** Conversion of an integer to [std::size_t] (modular). *)
Definition to_size_t (z : Z) : Z := z mod size_t_modulus.

(** [*p = c] *)
Definition store (m : memory) (p : pointer) (c : CharT) : memory :=
  fun a => if a =? p then c else m a.

(** [std::memcpy(dst, src, n * sizeof(CharT))]: the [n] characters at [src]
    are read from the memory as it is before the call (the C++ call is only
    defined for ranges that do not overlap, where this is what it does). *)
Definition memcpy (m : memory) (dst src : pointer) (n : Z) : memory :=
  fun a => if (dst <=? a) && (a <? dst + n) then m (src + (a - dst)) else m a.

(** The characters of a string literal, as code units. *)
Definition lit (s : string) : list CharT :=
  map (fun a => Z.of_N (N_of_ascii a)) (list_ascii_of_string s).

(** Places the characters [cs] at [p], [p + 1], ... *)
Fixpoint store_chars (m : memory) (p : pointer) (cs : list CharT) : memory :=
  match cs with
  | [] => m
  | c :: cs' => store_chars (store m p c) (p + 1) cs'
  end.

(** Places a terminated string (a C string literal) at [p]. *)
Definition store_zstr (m : memory) (p : pointer) (s : string) : memory :=
  store_chars m p (lit s ++ [0]).

(** Reads [n] characters starting at [p]. *)
Fixpoint load_chars (m : memory) (p : pointer) (n : nat) : list CharT :=
  match n with
  | O => []
  | S k => m p :: load_chars m (p + 1) k
  end.

(** [std::char_traits<CharT>::length(s)]: scans upwards from [s] to the first
    null character.  The scan of the model gives up after [fuel] characters
    ([None]); the C++ one is undefined when there is no terminator. *)
Fixpoint char_traits_length (fuel : nat) (m : memory) (s : pointer) : option Z :=
  match fuel with
  | O => None
  | S k =>
      if m s =? 0 then Some 0
      else option_map Z.succ (char_traits_length k m (s + 1))
  end.

(** ** [basic_string_view] (format.h, lines 67-87) *)

Record basic_string_view := mk_view { _begin : pointer; _size : Z }.

Module string_view.

(** [constexpr basic_string_view() = default;] *)
Definition default : basic_string_view := mk_view nullptr 0.

(** [basic_string_view(CharT const* first, CharT const* last)]:
    [_size(last - first)], a [ptrdiff_t] converted to [size_t]. *)
Definition of_range (first last : pointer) : basic_string_view :=
  mk_view first (to_size_t (last - first)).

(** [basic_string_view(CharT const* nstr, std::size_t size)] *)
Definition of_ptr_size (nstr : pointer) (size : Z) : basic_string_view :=
  mk_view nstr size.

(** [basic_string_view(CharT const* zstr)] *)
Definition of_zstr (fuel : nat) (m : memory) (zstr : pointer)
  : option basic_string_view :=
  option_map (mk_view zstr) (char_traits_length fuel m zstr).

(** The implicit copy constructor: member-wise. *)
Definition copy (v : basic_string_view) : basic_string_view :=
  mk_view (_begin v) (_size v).

Definition data (v : basic_string_view) : pointer := _begin v.
Definition size (v : basic_string_view) : Z := _size v.
Definition empty (v : basic_string_view) : bool := _size v =? 0.
Definition begin (v : basic_string_view) : pointer := _begin v.
Definition end_ (v : basic_string_view) : pointer := _begin v + _size v.

(** The text a view denotes in a given memory: what forward iteration from
    [begin()] to [end()] reads. *)
Definition chars (m : memory) (v : basic_string_view) : list CharT :=
  load_chars m (begin v) (Z.to_nat (size v)).

End string_view.

(** ** [basic_fixed_writer<CharT, SizeN>] (format.h, lines 104-119, 256-264)

    [_buffer] is a member array: the record keeps its address, its [SizeN]
    characters live in memory at [_buffer], ..., [_buffer + SizeN - 1].
    [SizeN] is a template parameter and so a parameter of every operation
    that mentions it. *)

Record basic_fixed_writer (SizeN : Z) :=
  mk_writer { _last : pointer; _buffer : pointer }.
Arguments mk_writer {SizeN} _ _.
Arguments _last {SizeN} _.
Arguments _buffer {SizeN} _.

Module fixed_writer.

(** Fills [n] characters from [p] with [CharT(0)]. *)
Fixpoint zero_fill (m : memory) (p : pointer) (n : nat) : memory :=
  match n with
  | O => m
  | S k => zero_fill (store m p 0) (p + 1) k
  end.

(** Default member initialisers, for an object whose array is at [buf]:
    [CharT* _last = _buffer; CharT _buffer[SizeN] = {CharT(0),};] (the
    elements without an initialiser are value-initialised, to zero). *)
Definition construct (SizeN : Z) (buf : pointer) (m : memory)
  : memory * basic_fixed_writer SizeN :=
  (zero_fill m buf (Z.to_nat SizeN), mk_writer buf buf).

(** [std::size_t size() const { return _last - _buffer; }] *)
Definition size {SizeN : Z} (w : basic_fixed_writer SizeN) : Z :=
  to_size_t (_last w - _buffer w).

(** [CharT const* c_str() const { return _buffer; }] *)
Definition c_str {SizeN : Z} (w : basic_fixed_writer SizeN) : pointer :=
  _buffer w.

(** [view() const { return basic_string_view<CharT>(_buffer, _last); }] *)
Definition view {SizeN : Z} (w : basic_fixed_writer SizeN)
  : basic_string_view :=
  string_view.of_range (_buffer w) (_last w).

(** [void clear() { _last = _buffer; }] *)
Definition clear {SizeN : Z} (w : basic_fixed_writer SizeN) (m : memory)
  : memory * basic_fixed_writer SizeN :=
  (m, mk_writer (_buffer w) (_buffer w)).

(** [write], lines 256-264:
    [remaining = SizeN - size() - 1;]
    [length = remaining < str.size() ? remaining : str.size();]
    [memcpy(_last, str.data(), length * sizeof(CharT));]
    [_last += length; *_last = CharT(0);] *)
Definition write {SizeN : Z} (w : basic_fixed_writer SizeN)
    (str : basic_string_view) (m : memory)
  : memory * basic_fixed_writer SizeN :=
  let remaining := to_size_t (SizeN - size w - 1) in
  let length :=
    if remaining <? string_view.size str then remaining
    else string_view.size str in
  let m1 := memcpy m (_last w) (string_view.data str) length in
  let last' := _last w + length in
  (store m1 last' 0, mk_writer last' (_buffer w)).

(** The mutating operations a client can apply to a writer object. *)
Inductive op :=
| op_write (str : basic_string_view)
| op_clear.

(** An operation is well-formed when the size of the view it passes is a
    [size_t], i.e. not negative. *)
Definition op_wf (o : op) : Prop :=
  match o with
  | op_write str => 0 <= string_view.size str
  | op_clear => True
  end.

Definition apply {SizeN : Z} (o : op) (s : memory * basic_fixed_writer SizeN)
  : memory * basic_fixed_writer SizeN :=
  match o with
  | op_write str => write (snd s) str (fst s)
  | op_clear => clear (snd s) (fst s)
  end.

(** A newly constructed writer followed by the operations [ops], in order. *)
Definition run (SizeN : Z) (buf : pointer) (m : memory) (ops : list op)
  : memory * basic_fixed_writer SizeN :=
  fold_left (fun s o => apply o s) ops (construct SizeN buf m).

(** What every state of a writer satisfies: [_last] points into the array
    and leaves room for the terminator. *)
Definition inv {SizeN : Z} (w : basic_fixed_writer SizeN) : Prop :=
  _buffer w <= _last w <= _buffer w + SizeN - 1.

(** The stored text is terminated where [size()] says it ends. *)
Definition terminated {SizeN : Z} (m : memory) (w : basic_fixed_writer SizeN)
  : Prop :=
  m (c_str w + size w) = 0.

End fixed_writer.

(** ** [basic_format_writer] (format.h, lines 89-102)

    The abstract interface: [write] takes a string slice, [view] extracts the
    current value.  A writer type is an instance of the class. *)

Class basic_format_writer (W : Type) := {
  write : W -> basic_string_view -> memory -> memory * W;
  view : W -> basic_string_view
}.

#[export] Instance fixed_writer_is_writer (SizeN : Z)
  : basic_format_writer (basic_fixed_writer SizeN) := {
  write := fixed_writer.write;
  view := fixed_writer.view
}.

(** ** The overload set of [format_value] (format.h, lines 139-195) *)

(** The integer types that have an overload of their own. *)
Inductive int_kind :=
| signed_char | signed_int | signed_long | signed_short | signed_long_long
| unsigned_char | unsigned_int | unsigned_long | unsigned_short
| unsigned_long_long.

(** A value of one of the types of the non-template overloads (lines 140-158;
    lines 160-178 are the same list for [wchar_t]).  A floating-point value
    is carried as its bit pattern. *)
Inductive builtin_value :=
| of_char_ptr (zstr : pointer)
| of_char_const_ptr (zstr : pointer)
| of_string_view (str : basic_string_view)
| of_char (ch : CharT)
| of_bool (value : bool)
| of_float (bits : Z)
| of_double (bits : Z)
| of_int (k : int_kind) (value : Z)
| of_void_ptr (value : pointer)
| of_void_const_ptr (value : pointer).

(** The underlying type of an enumeration: an integral type.  (The other
    character types reach an integer overload by promotion and are not told
    apart here.) *)
Inductive integral_type :=
| underlying_char
| underlying_bool
| underlying_int (k : int_kind).

(** A call argument: a value of a type with a non-template overload, of an
    enumeration type [EnumT], or of a pointer type [PointerT] that is none of
    [char*], [char const*], [void*], [void const*].  Every other type selects
    the deleted overload of line 195 and does not build. *)
Inductive argument :=
| builtin_arg (b : builtin_value)
| enum_arg (EnumT : string) (underlying : integral_type) (value : Z)
| pointer_arg (PointerT : string) (value : pointer).

(** [std::underlying_type_t<EnumT>(value)] *)
Definition to_underlying (underlying : integral_type) (value : Z)
  : builtin_value :=
  match underlying with
  | underlying_char => of_char value
  | underlying_bool => of_bool (negb (value =? 0))
  | underlying_int k => of_int k value
  end.

(** [static_cast<void const*>(value)]: the same address. *)
Definition to_void_const_ptr (value : pointer) : builtin_value :=
  of_void_const_ptr value.

(** The static type of an argument, which selects its thunk. *)
Inductive arg_type :=
| char_ptr_t | char_const_ptr_t | string_view_t | char_t | bool_t | float_t
| double_t | int_t (k : int_kind) | void_ptr_t | void_const_ptr_t
| enum_t (EnumT : string) (underlying : integral_type)
| pointer_t (PointerT : string).

Definition type_of (a : argument) : arg_type :=
  match a with
  | builtin_arg (of_char_ptr _) => char_ptr_t
  | builtin_arg (of_char_const_ptr _) => char_const_ptr_t
  | builtin_arg (of_string_view _) => string_view_t
  | builtin_arg (of_char _) => char_t
  | builtin_arg (of_bool _) => bool_t
  | builtin_arg (of_float _) => float_t
  | builtin_arg (of_double _) => double_t
  | builtin_arg (of_int k _) => int_t k
  | builtin_arg (of_void_ptr _) => void_ptr_t
  | builtin_arg (of_void_const_ptr _) => void_const_ptr_t
  | enum_arg EnumT underlying _ => enum_t EnumT underlying
  | pointer_arg PointerT _ => pointer_t PointerT
  end.

Definition int_kind_eq_dec (a b : int_kind) : {a = b} + {a <> b}.
Proof. decide equality. Defined.

Definition integral_type_eq_dec (a b : integral_type) : {a = b} + {a <> b}.
Proof. decide equality; apply int_kind_eq_dec. Defined.

Definition arg_type_eq_dec (a b : arg_type) : {a = b} + {a <> b}.
Proof.
  decide equality;
    first [ apply int_kind_eq_dec | apply integral_type_eq_dec
          | apply string_dec ].
Defined.

(** [FormatterParameter], a [void const*] to the storage of a call argument
    (the arguments are bound by [const&] and only read): the argument it
    refers to, or [None] for [nullptr]. *)
Definition FormatterParameter := option argument.

(** [BasicFormatterThunk<CharT>], a pointer to a function that takes a
    [basic_format_writer<CharT>&], a [void const*] and a
    [basic_string_view<CharT>] and returns nothing; [None] in a slot of that
    type is the null function pointer. *)
Definition BasicFormatterThunk (W : Type) :=
  W -> FormatterParameter -> basic_string_view -> memory -> memory * W.

Section FormatValue.

Context {W : Type}.

(** The non-template overloads are declared in the header and defined in the
    library's translation units: a parameter here. *)
Variable format_value_builtin :
  W -> builtin_value -> basic_string_view -> memory -> memory * W.

(** Lines 181-185: formatting for enumerations, using their numeric value. *)
Definition format_value_enum (out : W) (underlying : integral_type)
    (value : Z) (spec : basic_string_view) (m : memory) : memory * W :=
  format_value_builtin out (to_underlying underlying value) spec m.

(** Lines 187-191: formatting for the other pointer types. *)
Definition format_value_pointer (out : W) (value : pointer)
    (spec : basic_string_view) (m : memory) : memory * W :=
  format_value_builtin out (to_void_const_ptr value) spec m.

(** Overload resolution of the call [format_value(out, value, spec)]: an
    exact match of a non-template overload wins, else the template whose
    [enable_if] holds. *)
Definition format_value (out : W) (value : argument)
    (spec : basic_string_view) (m : memory) : memory * W :=
  match value with
  | builtin_arg b => format_value_builtin out b spec m
  | enum_arg _ underlying v => format_value_enum out underlying v spec m
  | pointer_arg _ p => format_value_pointer out p spec m
  end.

(** Lines 203-207: [format_value(out, *static_cast<T const*>(ptr), spec)].
    Reading a [T] through a null pointer or through the address of an object
    of another type is undefined in C++; the model leaves the writer as it
    is there.  [format] and [printf] never pair a thunk with such a slot. *)
Definition format_value_thunk (T : arg_type) : BasicFormatterThunk W :=
  fun out ptr spec m =>
    match ptr with
    | Some value =>
        if arg_type_eq_dec (type_of value) T then format_value out value spec m
        else (m, out)
    | None => (m, out)
    end.

(** ** The argument binder: [format] and [printf] (format.h, lines 222-254) *)

(** [{std::addressof(args)..., nullptr}] *)
Definition values_of (args : list argument) : list FormatterParameter :=
  map (fun a => Some a) args ++ [None].

(** [{&_detail::format_value_thunk<CharT, Args>..., nullptr}] *)
Definition funcs_of (args : list argument)
  : list (option (BasicFormatterThunk W)) :=
  map (fun a => Some (format_value_thunk (type_of a))) args ++ [None].

(** [sizeof...(args)] *)
Definition sizeof_pack (args : list argument) : Z :=
  Z.of_nat (List.length args).

(** [format_impl] and [printf_impl] are declared in the header (lines
    209-218) and instantiated elsewhere: parameters of the binder.  [R] is
    what the engine gives back, the writer reference together with whatever
    the implementation uses to report on the template. *)
Variable R : Type.
Variable format_impl printf_impl :
  W -> basic_string_view -> Z -> list (option (BasicFormatterThunk W)) ->
  list FormatterParameter -> memory -> R.

(** Lines 226-233, and 234-241 for [wchar_t]. *)
Definition format (writer_ : W) (format_ : basic_string_view)
    (args : list argument) (m : memory) : R :=
  let values := values_of args in
  let funcs := funcs_of args in
  format_impl writer_ format_ (sizeof_pack args) funcs values m.

(** Lines 247-254. *)
Definition printf (writer_ : W) (format_ : basic_string_view)
    (args : list argument) (m : memory) : R :=
  let values := values_of args in
  let funcs := funcs_of args in
  printf_impl writer_ format_ (sizeof_pack args) funcs values m.

End FormatValue.

(** ** The two engines

    [format_impl] and [printf_impl] are only declared in the header.  The
    definitions below follow the specification of the library (its sections
    4.5, 4.6 and 7) and have the parameters the header declares. *)

(** How a run of an engine ends.  [template_fault] is the distinguishable
    condition a faulty template is surfaced as (malformed placeholder, index
    out of range, arguments exhausted); a run stops at the first one and
    keeps what it has written.  [undefined] marks a read outside the two
    argument arrays or a call through a null thunk. *)
Inductive status :=
| completed
| template_fault
| undefined.

(** The state of a run: the sink, the memory, the auto-increment counter of
    the brace-style engine (the cursor of the next unused argument for the
    printf-style one), and the indices at which the two argument arrays have
    been read and the thunk invoked, oldest first. *)
Record engine (W : Type) := mk_engine {
  sink : W;
  mem : memory;
  next_index : Z;
  reads : list Z
}.
Arguments mk_engine {W} _ _ _ _.
Arguments sink {W} _.
Arguments mem {W} _.
Arguments next_index {W} _.
Arguments reads {W} _.

Definition open_brace : CharT := 123.
Definition close_brace : CharT := 125.
Definition colon : CharT := 58.
Definition percent : CharT := 37.
Definition dot : CharT := 46.

Definition is_digit (c : CharT) : bool := (48 <=? c) && (c <=? 57).
Definition digit_value (c : CharT) : Z := c - 48.

(** The Placeholder state of the brace-style scan, with what has been read of
    the placeholder so far: the optional decimal index, then, after the
    separator, the spec text (where it begins and how long it is). *)
Inductive placeholder :=
| reading_index (index : option Z)
| reading_spec (index : option Z) (spec_begin : pointer) (spec_size : Z).

Inductive scan_state :=
| Literal
| Placeholder (ph : placeholder).

(** The phases of a printf conversion specifier,
    [%[flags][width][.precision][length]conversion]. *)
Inductive specifier_phase :=
| in_flags
| in_width
| in_precision
| in_length.

Inductive printf_state :=
| Text
| Specifier (spec_begin : pointer) (spec_size : Z) (phase : specifier_phase).

(** [+] (always a sign), space (space or sign), [#] (type prefix), and the
    conventional [-] and [0]. *)
Definition is_flag (c : CharT) : bool :=
  (c =? 43) || (c =? 32) || (c =? 35) || (c =? 45) || (c =? 48).

(** [h], [l], [j], [z], [t], [L] (doubled for [hh] and [ll]). *)
Definition is_length_qualifier (c : CharT) : bool :=
  (c =? 104) || (c =? 108) || (c =? 106) || (c =? 122) || (c =? 116)
  || (c =? 76).

(** [d i u o x X f F e E g G a A c s p] *)
Definition is_conversion (c : CharT) : bool :=
  existsb (Z.eqb c)
    [100; 105; 117; 111; 120; 88; 102; 70; 101; 69; 103; 71; 97; 65; 99;
     115; 112].

(** The phase a character of a specifier belongs to, when it is not the
    conversion character: the parts come in order and each is optional. *)
Definition specifier_step (phase : specifier_phase) (c : CharT)
  : option specifier_phase :=
  match phase with
  | in_flags =>
      if is_flag c then Some in_flags
      else if is_digit c then Some in_width
      else if c =? dot then Some in_precision
      else if is_length_qualifier c then Some in_length
      else None
  | in_width =>
      if is_digit c then Some in_width
      else if c =? dot then Some in_precision
      else if is_length_qualifier c then Some in_length
      else None
  | in_precision =>
      if is_digit c then Some in_precision
      else if is_length_qualifier c then Some in_length
      else None
  | in_length =>
      if is_length_qualifier c then Some in_length else None
  end.

Section Engines.

Context {W : Type} {writer : basic_format_writer W}.

(** Copies the [n] characters at [p] to the sink. *)
Definition emit (e : engine W) (p : pointer) (n : Z) : engine W :=
  let '(m', out') := write (sink e) (string_view.of_ptr_size p n) (mem e) in
  mk_engine out' m' (next_index e) (reads e).

Variable count : Z.
Variable funcs : list (option (BasicFormatterThunk W)).
Variable values : list FormatterParameter.

(** Reads slot [index] of the two arrays and invokes the thunk on the sink. *)
Definition invoke (index : Z) (spec : basic_string_view) (e : engine W)
  : option (engine W) :=
  match nth_error funcs (Z.to_nat index), nth_error values (Z.to_nat index) with
  | Some (Some thunk), Some value =>
      let '(m', out') := thunk (sink e) value spec (mem e) in
      Some (mk_engine out' m' (next_index e) (reads e ++ [index]))
  | _, _ => None
  end.

(** Modelled from the spec: the resolution of one placeholder of the
    brace-style engine, which [format_impl] (declared in the header, defined
    elsewhere in the repository) performs.  Section 4.5: an explicit index is
    used as it is; without one the counter is used, and incremented by one
    after the use.  An index at or beyond the argument count is a template
    fault. *)
Definition resolve (explicit : option Z) (spec : basic_string_view)
    (e : engine W) : status * engine W :=
  let index := match explicit with Some i => i | None => next_index e end in
  if count <=? index then (template_fault, e)
  else
    match invoke index spec e with
    | Some e' =>
        let counter :=
          match explicit with
          | Some _ => next_index e'
          | None => next_index e' + 1
          end in
        (completed, mk_engine (sink e') (mem e') counter (reads e'))
    | None => (undefined, e)
    end.

(** Modelled from the spec: the scan of the brace-style engine, the body of
    [format_impl] (declared in the header, defined elsewhere in the
    repository), over the characters [text] of the template, of which the
    first is at address [p].  Section 4.5: in Literal, characters are copied
    to the sink; a doubled opening or closing brace emits one literal brace; a
    single opening brace goes to Placeholder.  In Placeholder: an optional
    decimal index, an optional separator and spec text up to the closing
    brace, then the placeholder is resolved.  Section 7: an unterminated
    brace and a non-numeric index are template faults, and so is a closing
    brace that closes nothing, which the grammar of section 6 does not
    produce. *)
Fixpoint brace_scan (text : list CharT) (p : pointer) (s : scan_state)
    (e : engine W) {struct text} : status * engine W :=
  match text with
  | [] =>
      match s with
      | Literal => (completed, e)
      | Placeholder _ => (template_fault, e)
      end
  | c :: rest =>
      match s with
      | Literal =>
          if c =? open_brace then
            match rest with
            | c' :: rest' =>
                if c' =? open_brace
                then brace_scan rest' (p + 2) Literal (emit e p 1)
                else brace_scan rest (p + 1)
                       (Placeholder (reading_index None)) e
            | [] => (template_fault, e)
            end
          else if c =? close_brace then
            match rest with
            | c' :: rest' =>
                if c' =? close_brace
                then brace_scan rest' (p + 2) Literal (emit e p 1)
                else (template_fault, e)
            | [] => (template_fault, e)
            end
          else brace_scan rest (p + 1) Literal (emit e p 1)
      | Placeholder (reading_index index) =>
          if is_digit c then
            let so_far := match index with Some i => i | None => 0 end in
            brace_scan rest (p + 1)
              (Placeholder (reading_index (Some (10 * so_far + digit_value c))))
              e
          else if c =? colon then
            brace_scan rest (p + 1)
              (Placeholder (reading_spec index (p + 1) 0)) e
          else if c =? close_brace then
            match resolve index (string_view.of_ptr_size p 0) e with
            | (completed, e') => brace_scan rest (p + 1) Literal e'
            | stopped => stopped
            end
          else (template_fault, e)
      | Placeholder (reading_spec index spec_begin spec_size) =>
          if c =? close_brace then
            match
              resolve index (string_view.of_ptr_size spec_begin spec_size) e
            with
            | (completed, e') => brace_scan rest (p + 1) Literal e'
            | stopped => stopped
            end
          else
            brace_scan rest (p + 1)
              (Placeholder (reading_spec index spec_begin (spec_size + 1))) e
      end
  end.

(** Modelled from the spec: the consumption of one argument by the
    printf-style engine, which [printf_impl] (declared in the header, defined
    elsewhere in the repository) performs.  Section 4.6: each specifier
    consumes the next unused argument; running out of arguments is a template
    fault. *)
Definition consume (spec : basic_string_view) (e : engine W)
  : status * engine W :=
  let index := next_index e in
  if count <=? index then (template_fault, e)
  else
    match invoke index spec e with
    | Some e' =>
        (completed,
         mk_engine (sink e') (mem e') (next_index e' + 1) (reads e'))
    | None => (undefined, e)
    end.

(** Modelled from the spec: the scan of the printf-style engine, the body of
    [printf_impl] (declared in the header, defined elsewhere in the
    repository).  Section 4.6: scan for the percent sign; a doubled one emits
    one literal percent sign; otherwise flags, width, precision and length
    qualifier are read in that order, then the mandatory conversion
    character, and the next unused argument is rendered with the text of the
    specifier as its spec. *)
Fixpoint printf_scan (text : list CharT) (p : pointer) (s : printf_state)
    (e : engine W) {struct text} : status * engine W :=
  match text with
  | [] =>
      match s with
      | Text => (completed, e)
      | Specifier _ _ _ => (template_fault, e)
      end
  | c :: rest =>
      match s with
      | Text =>
          if c =? percent then
            match rest with
            | c' :: rest' =>
                if c' =? percent
                then printf_scan rest' (p + 2) Text (emit e p 1)
                else printf_scan rest (p + 1)
                       (Specifier (p + 1) 0 in_flags) e
            | [] => (template_fault, e)
            end
          else printf_scan rest (p + 1) Text (emit e p 1)
      | Specifier spec_begin spec_size phase =>
          match specifier_step phase c with
          | Some phase' =>
              printf_scan rest (p + 1)
                (Specifier spec_begin (spec_size + 1) phase') e
          | None =>
              if is_conversion c then
                match
                  consume
                    (string_view.of_ptr_size spec_begin (spec_size + 1)) e
                with
                | (completed, e') => printf_scan rest (p + 1) Text e'
                | stopped => stopped
                end
              else (template_fault, e)
          end
      end
  end.

End Engines.

Module brace_engine.

(** Modelled from the spec: [_detail::format_impl], declared in the header
    (lines 209-210) and defined elsewhere in the repository.  One scan of the
    template from the Literal state, with the counter at 0. *)
Definition format_impl {W : Type} {writer : basic_format_writer W} (out : W)
    (format : basic_string_view) (count : Z)
    (funcs : list (option (BasicFormatterThunk W)))
    (values : list FormatterParameter) (m : memory) : status * engine W :=
  brace_scan count funcs values (string_view.chars m format)
    (string_view.begin format) Literal (mk_engine out m 0 []).

End brace_engine.

Module printf_engine.

(** Modelled from the spec: [_detail::printf_impl], declared in the header
    (lines 211-212) and defined elsewhere in the repository.  One scan of the
    template, consuming the arguments from the first. *)
Definition printf_impl {W : Type} {writer : basic_format_writer W} (out : W)
    (format : basic_string_view) (count : Z)
    (funcs : list (option (BasicFormatterThunk W)))
    (values : list FormatterParameter) (m : memory) : status * engine W :=
  printf_scan count funcs values (string_view.chars m format)
    (string_view.begin format) Text (mk_engine out m 0 []).

End printf_engine.

(** The state [e] with its counter set to [k]. *)
Definition set_next_index {W : Type} (k : Z) (e : engine W) : engine W :=
  mk_engine (sink e) (mem e) k (reads e).

(** The text a run has left in its sink. *)
Definition output {W : Type} {writer : basic_format_writer W}
    (r : status * engine W) : list CharT :=
  string_view.chars (mem (snd r)) (view (sink (snd r))).

(** ** A concrete setting for the tests of the specification

    Templates are placed at address 1000, the texts of two string arguments
    A and B at 2000 and 2010, and the array of a [fixed_writer<64>] at 3000.
    The arguments are rendered by [example.format_value_builtin]. *)
Module example.

Definition text_memory (template : string) : memory :=
  store_zstr (store_zstr (store_zstr (fun _ => 7) 2000 "A") 2010 "B")
    1000 template.

Definition template_view (template : string) : basic_string_view :=
  string_view.of_ptr_size 1000 (Z.of_nat (String.length template)).

Definition A : argument := builtin_arg (of_string_view (mk_view 2000 1)).
Definition B : argument := builtin_arg (of_string_view (mk_view 2010 1)).

(** Modelled from the spec: the built-in rendering routines, which the
    header declares (lines 140-158) and the library defines elsewhere.  Only
    the one for [string_view] is used by the tests: it writes the string to
    the sink.  The others are left without effect here. *)
Definition format_value_builtin {W : Type} {writer : basic_format_writer W}
    (out : W) (b : builtin_value) (spec : basic_string_view) (m : memory)
  : memory * W :=
  match b with
  | of_string_view str => write out str m
  | _ => (m, out)
  end.

(** [fixed_writer<64> w; format(w, template, args...)] *)
Definition format_into_fixed (template : string) (args : list argument)
  : status * engine (basic_fixed_writer 64) :=
  let '(m, w) := fixed_writer.construct 64 3000 (text_memory template) in
  format format_value_builtin _ brace_engine.format_impl w
    (template_view template) args m.

(** [fixed_writer<64> w; printf(w, template, args...)] *)
Definition printf_into_fixed (template : string) (args : list argument)
  : status * engine (basic_fixed_writer 64) :=
  let '(m, w) := fixed_writer.construct 64 3000 (text_memory template) in
  printf format_value_builtin _ printf_engine.printf_impl w
    (template_view template) args m.

End example.

(** ** Sequences of writes on a fixed writer *)

(** [w.write(s1); w.write(s2); ...] *)
Definition write_all {SizeN : Z} (strs : list basic_string_view)
    (s : memory * basic_fixed_writer SizeN)
  : memory * basic_fixed_writer SizeN :=
  fold_left (fun s str => fixed_writer.write (snd s) str (fst s)) strs s.

(** The sum of the sizes of the views. *)
Definition total_size (strs : list basic_string_view) : Z :=
  fold_right (fun v acc => string_view.size v + acc) 0 strs.

(** The texts of the views, one after the other. *)
Definition texts (m : memory) (strs : list basic_string_view) : list CharT :=
  List.concat (map (string_view.chars m) strs).

(** The view has a [size_t] size and its characters lie outside the array of
    [SizeN] characters at [buf]. *)
Definition outside_array (SizeN : Z) (buf : pointer) (v : basic_string_view)
  : Prop :=
  0 <= string_view.size v
  /\ (string_view.end_ v <= buf \/ buf + SizeN <= string_view.begin v).

(** ** The text of a placeholder

    What the grammar of the brace-style template calls a placeholder: an
    opening brace, decimal digits (possibly none), optionally the separator
    and a spec text, and a closing brace. *)

(** The number a run of decimal digits denotes. *)
Definition decimal (ds : list CharT) : Z :=
  fold_left (fun acc c => 10 * acc + digit_value c) ds 0.

(** The explicit index of a placeholder with the digits [ds], if it has
    any. *)
Definition explicit_index (ds : list CharT) : option Z :=
  match ds with
  | [] => None
  | _ :: _ => Some (decimal ds)
  end.

(** The characters of the placeholder with the digits [ds] and the optional
    spec text [sp]. *)
Definition placeholder_chars (ds : list CharT) (sp : option (list CharT))
  : list CharT :=
  open_brace :: ds
  ++ match sp with
     | None => []
     | Some t => colon :: t
     end
  ++ [close_brace].

(** The view of the spec text of that placeholder, when its opening brace
    is at address [p]: the text behind the separator, or the empty view at
    the closing brace when there is no separator. *)
Definition placeholder_spec (p : pointer) (ds : list CharT)
    (sp : option (list CharT)) : basic_string_view :=
  match sp with
  | None => string_view.of_ptr_size (p + 1 + Z.of_nat (List.length ds)) 0
  | Some t =>
      string_view.of_ptr_size (p + 1 + Z.of_nat (List.length ds) + 1)
        (Z.of_nat (List.length t))
  end.

(** * Properties *)

(** ** Memory *)

Lemma to_size_t_small (z : Z) : 0 <= z < size_t_modulus -> to_size_t z = z.
Proof. intros H. unfold to_size_t. now apply Z.mod_small. Qed.

Lemma store_same (m : memory) (p : pointer) (c : CharT) : store m p c p = c.
Proof. unfold store. now rewrite Z.eqb_refl. Qed.

Lemma store_other (m : memory) (p a : pointer) (c : CharT) :
  a <> p -> store m p c a = m a.
Proof. intros H. unfold store. now apply Z.eqb_neq in H as ->. Qed.

Lemma memcpy_inside (m : memory) (dst src : pointer) (n : Z) (a : pointer) :
  dst <= a < dst + n -> memcpy m dst src n a = m (src + (a - dst)).
Proof.
  intros H. unfold memcpy.
  replace (dst <=? a) with true by (symmetry; apply Z.leb_le; lia).
  replace (a <? dst + n) with true by (symmetry; apply Z.ltb_lt; lia).
  reflexivity.
Qed.

Lemma memcpy_outside (m : memory) (dst src : pointer) (n : Z) (a : pointer) :
  a < dst \/ dst + n <= a -> memcpy m dst src n a = m a.
Proof.
  intros H. unfold memcpy.
  destruct (dst <=? a) eqn:E1; [| reflexivity].
  destruct (a <? dst + n) eqn:E2; [| reflexivity].
  apply Z.leb_le in E1. apply Z.ltb_lt in E2. lia.
Qed.

Lemma load_chars_length (m : memory) (n : nat) :
  forall p, List.length (load_chars m p n) = n.
Proof. induction n as [| k IH]; intros p; simpl; [| rewrite IH]; reflexivity. Qed.

Lemma load_chars_ext (m1 m2 : memory) (n : nat) :
  forall p q,
    (forall i, 0 <= i < Z.of_nat n -> m1 (p + i) = m2 (q + i)) ->
    load_chars m1 p n = load_chars m2 q n.
Proof.
  induction n as [| k IH]; intros p q H; simpl; [reflexivity |].
  f_equal.
  - specialize (H 0). rewrite !Z.add_0_r in H. apply H. lia.
  - apply IH. intros i Hi.
    replace (p + 1 + i) with (p + (1 + i)) by lia.
    replace (q + 1 + i) with (q + (1 + i)) by lia.
    apply H. lia.
Qed.

Lemma load_chars_app (m : memory) (a b : nat) :
  forall p,
    load_chars m p (a + b) =
    load_chars m p a ++ load_chars m (p + Z.of_nat a) b.
Proof.
  induction a as [| k IH]; intros p.
  - simpl. now rewrite Z.add_0_r.
  - cbn [Nat.add load_chars app]. rewrite IH. do 3 f_equal. lia.
Qed.

Lemma firstn_load_chars (m : memory) (k : nat) :
  forall n p, firstn k (load_chars m p n) = load_chars m p (Nat.min k n).
Proof.
  induction k as [| k IH]; intros [| n] p; simpl; try reflexivity.
  now rewrite IH.
Qed.

Lemma zero_fill_outside (n : nat) :
  forall m p a,
    a < p \/ p + Z.of_nat n <= a -> fixed_writer.zero_fill m p n a = m a.
Proof.
  induction n as [| k IH]; intros m p a H; simpl; [reflexivity |].
  rewrite IH by lia. apply store_other. lia.
Qed.

Lemma zero_fill_inside (n : nat) :
  forall m p a, p <= a < p + Z.of_nat n -> fixed_writer.zero_fill m p n a = 0.
Proof.
  induction n as [| k IH]; intros m p a H; simpl; [lia |].
  destruct (Z.eq_dec a p) as [-> | Hne].
  - rewrite zero_fill_outside by lia. apply store_same.
  - apply IH. lia.
Qed.

(** ** The fixed writer *)

Lemma fixed_writer_size_inv (SizeN : Z) (w : basic_fixed_writer SizeN) :
  SizeN <= size_t_modulus -> fixed_writer.inv w ->
  fixed_writer.size w = _last w - _buffer w /\
  0 <= fixed_writer.size w <= SizeN - 1.
Proof.
  unfold fixed_writer.inv, fixed_writer.size. intros HN H.
  rewrite to_size_t_small by lia. lia.
Qed.

(** The number of characters [write] copies. *)
Lemma write_length (SizeN : Z) (w : basic_fixed_writer SizeN)
    (str : basic_string_view) (m : memory) :
  1 <= SizeN <= size_t_modulus -> fixed_writer.inv w ->
  _last (snd (fixed_writer.write w str m)) =
  _last w + Z.min (string_view.size str) (SizeN - fixed_writer.size w - 1)
  /\ _buffer (snd (fixed_writer.write w str m)) = _buffer w
  /\ fst (fixed_writer.write w str m) =
     store
       (memcpy m (_last w) (string_view.data str)
          (Z.min (string_view.size str) (SizeN - fixed_writer.size w - 1)))
       (_last w + Z.min (string_view.size str)
                    (SizeN - fixed_writer.size w - 1)) 0.
Proof.
  intros HN Hinv.
  destruct (fixed_writer_size_inv SizeN w) as [Hsz Hrange]; [lia | assumption |].
  unfold fixed_writer.write. cbn [fst snd _last _buffer].
  rewrite (to_size_t_small (SizeN - fixed_writer.size w - 1)) by lia.
  destruct (SizeN - fixed_writer.size w - 1 <? string_view.size str) eqn:E.
  - apply Z.ltb_lt in E. rewrite Z.min_r by lia. auto.
  - apply Z.ltb_ge in E. rewrite Z.min_l by lia. auto.
Qed.

Lemma construct_inv (SizeN : Z) (buf : pointer) (m : memory) :
  1 <= SizeN -> fixed_writer.inv (snd (fixed_writer.construct SizeN buf m)).
Proof. intros H. unfold fixed_writer.inv. simpl. lia. Qed.

Lemma clear_inv (SizeN : Z) (w : basic_fixed_writer SizeN) (m : memory) :
  1 <= SizeN -> fixed_writer.inv (snd (fixed_writer.clear w m)).
Proof. intros H. unfold fixed_writer.inv. simpl. lia. Qed.

Lemma write_inv (SizeN : Z) (w : basic_fixed_writer SizeN)
    (str : basic_string_view) (m : memory) :
  1 <= SizeN <= size_t_modulus -> fixed_writer.inv w ->
  0 <= string_view.size str ->
  fixed_writer.inv (snd (fixed_writer.write w str m)).
Proof.
  intros HN Hinv Hstr.
  destruct (write_length SizeN w str m HN Hinv) as (Hl & Hb & _).
  destruct (fixed_writer_size_inv SizeN w) as [Hsz Hrange]; [lia | assumption |].
  unfold fixed_writer.inv in *. rewrite Hl, Hb. lia.
Qed.

(** Every state of a writer satisfies [inv]: [size()] never exceeds
    [SizeN - 1]. *)
Lemma run_inv (SizeN : Z) (buf : pointer) (m : memory)
    (ops : list fixed_writer.op) :
  1 <= SizeN <= size_t_modulus -> Forall fixed_writer.op_wf ops ->
  fixed_writer.inv (snd (fixed_writer.run SizeN buf m ops)).
Proof.
  intros HN Hops. unfold fixed_writer.run.
  assert (H0 := construct_inv SizeN buf m (proj1 HN)).
  revert H0. generalize (fixed_writer.construct SizeN buf m).
  induction Hops as [| o ops Ho _ IH]; intros s Hs; simpl; [exact Hs |].
  apply IH. destruct o as [str |]; cbn [fixed_writer.apply].
  - apply (write_inv SizeN (snd s) str (fst s)); assumption.
  - apply (clear_inv SizeN (snd s) (fst s)). lia.
Qed.

Lemma view_chars_of_writer (SizeN : Z) (w : basic_fixed_writer SizeN)
    (m : memory) :
  SizeN <= size_t_modulus -> fixed_writer.inv w ->
  string_view.chars m (fixed_writer.view w) =
  load_chars m (_buffer w) (Z.to_nat (_last w - _buffer w)).
Proof.
  intros HN Hinv. unfold string_view.chars, fixed_writer.view.
  unfold string_view.of_range, string_view.begin, string_view.size.
  cbn [_begin _size]. unfold fixed_writer.inv in Hinv.
  now rewrite to_size_t_small by lia.
Qed.

(** C1.  [basic_fixed_writer::write] on a writer of capacity [SizeN] (any
    state the writer can be in, see [run_inv]) and a string [str] appends
    exactly [min(str.size(), SizeN - size() - 1)] characters, the first ones
    of [str]; the rest is dropped.  The function has no failure result: it
    returns the new memory and writer for every input.  The new text is
    terminated, and no character outside [_last, _last + n], which lies
    inside the array, is changed.  [fixed_writer_hello_witness] is the case
    of capacity 4 fed the text hello. *)
Theorem fixed_writer_write_truncates :
  forall (SizeN : Z) (w : basic_fixed_writer SizeN)
         (str : basic_string_view) (m : memory),
    1 <= SizeN < size_t_modulus ->
    fixed_writer.inv w ->
    0 <= string_view.size str ->
    let n := Z.min (string_view.size str) (SizeN - fixed_writer.size w - 1) in
    let m' := fst (fixed_writer.write w str m) in
    let w' := snd (fixed_writer.write w str m) in
    fixed_writer.size w' = fixed_writer.size w + n
    /\ string_view.chars m' (fixed_writer.view w') =
       string_view.chars m (fixed_writer.view w)
       ++ firstn (Z.to_nat n) (string_view.chars m str)
    /\ fixed_writer.terminated m' w'
    /\ fixed_writer.size w' <= SizeN - 1
    /\ (forall a, a < _last w \/ _last w + n < a -> m' a = m a)
    /\ _buffer w <= _last w
    /\ _last w + n <= _buffer w + SizeN - 1.
Proof.
  intros SizeN w str m HN Hinv Hstr n m' w'.
  assert (HN' : 1 <= SizeN <= size_t_modulus) by lia.
  destruct (write_length SizeN w str m HN' Hinv) as (Hl & Hb & Hm).
  fold n in Hl, Hm. fold w' in Hl, Hb. fold m' in Hm.
  destruct (fixed_writer_size_inv SizeN w) as [Hsz Hrange]; [lia | assumption |].
  assert (Hinv' : fixed_writer.inv w') by now apply write_inv.
  destruct (fixed_writer_size_inv SizeN w') as [Hsz' Hrange']; [lia | assumption |].
  assert (Hn : 0 <= n <= SizeN - fixed_writer.size w - 1) by (subst n; lia).
  assert (Hsize : fixed_writer.size w' = fixed_writer.size w + n) by lia.
  split; [exact Hsize |].
  split.
  { rewrite !view_chars_of_writer by (assumption || lia).
    rewrite Hl, Hb.
    replace (Z.to_nat (_last w + n - _buffer w))
      with (Z.to_nat (_last w - _buffer w) + Z.to_nat n)%nat by lia.
    rewrite load_chars_app. f_equal.
    - apply load_chars_ext. intros i Hi. rewrite Hm.
      rewrite store_other by lia. rewrite memcpy_outside by lia. reflexivity.
    - unfold string_view.chars. rewrite firstn_load_chars.
      replace (Nat.min (Z.to_nat n) (Z.to_nat (string_view.size str)))
        with (Z.to_nat n) by (subst n; lia).
      apply load_chars_ext. intros i Hi. rewrite Hm.
      rewrite store_other by lia. rewrite memcpy_inside by lia.
      unfold string_view.begin, string_view.data. f_equal. lia. }
  split.
  { unfold fixed_writer.terminated, fixed_writer.c_str.
    rewrite Hb, Hsz', Hl, Hb, Hm.
    replace (_buffer w + (_last w + n - _buffer w)) with (_last w + n) by lia.
    apply store_same. }
  split; [lia |].
  split.
  { intros a Ha. rewrite Hm. rewrite store_other by lia.
    apply memcpy_outside. lia. }
  unfold fixed_writer.inv in Hinv. lia.
Qed.

(** The third test of the specification: capacity 4, the text hello. *)
Lemma fixed_writer_hello_witness :
  let m0 := store_zstr (fun _ => 7) 1000 "hello" in
  let m := fst (fixed_writer.construct 4 3000 m0) in
  let w := snd (fixed_writer.construct 4 3000 m0) in
  let m' := fst (fixed_writer.write w (mk_view 1000 5) m) in
  let w' := snd (fixed_writer.write w (mk_view 1000 5) m) in
  fixed_writer.size w' = 3
  /\ string_view.chars m' (fixed_writer.view w') = lit "hel"
  /\ m' 3003 = 0
  /\ m' 3004 = 7.
Proof.
  intros m0 m w m' w'.
  assert (HN : 1 <= 4 < size_t_modulus) by (unfold size_t_modulus; lia).
  assert (Hinv : fixed_writer.inv w) by (unfold fixed_writer.inv; simpl; lia).
  assert (Hstr : 0 <= string_view.size (mk_view 1000 5)) by (simpl; lia).
  destruct (fixed_writer_write_truncates 4 w (mk_view 1000 5) m HN Hinv Hstr)
    as (Hsize & Hchars & Hterm & _ & Hframe & _).
  split; [exact Hsize |].
  split; [exact Hchars |].
  split; [exact Hterm |].
  exact (Hframe 3004 (or_intror (eq_refl : (3000 + 3 ?= 3004) = Lt))).
Defined.

(** After construction and after every [write] the text is terminated at
    [size()]: the part of the termination invariant the code keeps. *)
Lemma construct_terminated (SizeN : Z) (buf : pointer) (m : memory) :
  1 <= SizeN ->
  fixed_writer.terminated (fst (fixed_writer.construct SizeN buf m))
    (snd (fixed_writer.construct SizeN buf m)).
Proof.
  intros HN. unfold fixed_writer.terminated, fixed_writer.c_str.
  unfold fixed_writer.size. cbn [fixed_writer.construct fst snd _last _buffer].
  rewrite Z.sub_diag. change (to_size_t 0) with 0. rewrite Z.add_0_r.
  apply zero_fill_inside. lia.
Qed.

(** C10.  A newly constructed writer is empty and terminated: the cursor
    [_last] is at [_buffer], so [size()] is 0 and [view()] is empty, and the
    first character of the array is zero, so [c_str()] points at an empty
    terminated string (the scan for the terminator stops at once). *)
Theorem fixed_writer_fresh_is_empty :
  forall (SizeN : Z) (buf : pointer) (m : memory),
    1 <= SizeN ->
    let m' := fst (fixed_writer.construct SizeN buf m) in
    let w := snd (fixed_writer.construct SizeN buf m) in
    _last w = _buffer w
    /\ fixed_writer.size w = 0
    /\ string_view.size (fixed_writer.view w) = 0
    /\ string_view.empty (fixed_writer.view w) = true
    /\ string_view.chars m' (fixed_writer.view w) = []
    /\ m' (fixed_writer.c_str w) = 0
    /\ (forall fuel,
          char_traits_length (S fuel) m' (fixed_writer.c_str w) = Some 0).
Proof.
  intros SizeN buf m HN m' w.
  assert (Hsz : fixed_writer.size w = 0).
  { unfold fixed_writer.size. subst w. cbn [fixed_writer.construct snd _last _buffer].
    now rewrite Z.sub_diag. }
  assert (Hz : m' (fixed_writer.c_str w) = 0).
  { pose proof (construct_terminated SizeN buf m HN) as Ht.
    unfold fixed_writer.terminated in Ht. fold m' w in Ht.
    now rewrite Hsz, Z.add_0_r in Ht. }
  assert (Hv : string_view.size (fixed_writer.view w) = 0) by exact Hsz.
  repeat split.
  - exact Hsz.
  - exact Hv.
  - unfold string_view.empty. fold (string_view.size (fixed_writer.view w)).
    now rewrite Hv.
  - unfold string_view.chars. now rewrite Hv.
  - exact Hz.
  - intros fuel. cbn [char_traits_length]. now rewrite Hz.
Qed.

Lemma fixed_writer_fresh_witness :
  let m' := fst (fixed_writer.construct 4 3000 (fun _ => 7)) in
  let w := snd (fixed_writer.construct 4 3000 (fun _ => 7)) in
  fixed_writer.size w = 0
  /\ string_view.empty (fixed_writer.view w) = true
  /\ m' 3000 = 0
  /\ char_traits_length 1 m' (fixed_writer.c_str w) = Some 0.
Proof.
  intros m' w.
  assert (HN : 1 <= 4) by lia.
  destruct (fixed_writer_fresh_is_empty 4 3000 (fun _ => 7) HN)
    as (_ & Hsize & _ & Hempty & _ & Hzero & Hscan).
  split; [exact Hsize |].
  split; [exact Hempty |].
  split; [exact Hzero |].
  exact (Hscan 0%nat).
Defined.

(** C2, on the path that breaks it.  A writer of capacity 4 is fed abc and
    then cleared: [size()] is 0 and [view()] is empty, but [clear] has only
    moved [_last] and not stored a terminator, so the character at position
    [size()] is still the a, and [c_str()] still reads abc. *)
Theorem fixed_writer_clear_keeps_stale_text :
  let m0 := store_zstr (fun _ => 7) 1000 "abc" in
  let s :=
    fixed_writer.run 4 3000 m0
      [fixed_writer.op_write (mk_view 1000 3); fixed_writer.op_clear] in
  fixed_writer.size (snd s) = 0
  /\ string_view.empty (fixed_writer.view (snd s)) = true
  /\ fst s (fixed_writer.c_str (snd s) + fixed_writer.size (snd s)) = 97
  /\ char_traits_length 8 (fst s) (fixed_writer.c_str (snd s)) = Some 3
  /\ load_chars (fst s) (fixed_writer.c_str (snd s)) 4 = lit "abc" ++ [0].
Proof.
  intros m0 s. repeat split; vm_compute; reflexivity.
Qed.

(** [clear] moves the cursor and stores nothing: the text is terminated
    afterwards only if the first character of the array already was null. *)
Lemma clear_terminated_iff (SizeN : Z) (w : basic_fixed_writer SizeN)
    (m : memory) :
  fst (fixed_writer.clear w m) = m
  /\ fixed_writer.size (snd (fixed_writer.clear w m)) = 0
  /\ (fixed_writer.terminated (fst (fixed_writer.clear w m))
        (snd (fixed_writer.clear w m)) <-> m (_buffer w) = 0).
Proof.
  unfold fixed_writer.terminated, fixed_writer.size, fixed_writer.c_str.
  cbn [fixed_writer.clear fst snd _last _buffer].
  rewrite Z.sub_diag. change (to_size_t 0) with 0. rewrite Z.add_0_r.
  repeat split; auto.
Qed.

(** The bound on [size()] holds in every state, [clear] included. *)
Lemma run_size_bound (SizeN : Z) (buf : pointer) (m : memory)
    (ops : list fixed_writer.op) :
  1 <= SizeN <= size_t_modulus -> Forall fixed_writer.op_wf ops ->
  0 <= fixed_writer.size (snd (fixed_writer.run SizeN buf m ops)) <= SizeN - 1.
Proof.
  intros HN Hops.
  apply fixed_writer_size_inv; [lia | now apply run_inv].
Qed.

(** ** The string view *)

(** The scan for the terminator finds the first null character, given fuel
    for the characters before it and the terminator itself. *)
Lemma char_traits_length_first_null (m : memory) (k : nat) :
  forall (s : pointer) (fuel : nat),
    (forall i, 0 <= i < Z.of_nat k -> m (s + i) <> 0) ->
    m (s + Z.of_nat k) = 0 ->
    (k < fuel)%nat ->
    char_traits_length fuel m s = Some (Z.of_nat k).
Proof.
  induction k as [| k IH]; intros s fuel Hnz Hz Hfuel.
  - destruct fuel as [| fuel]; [lia |]. cbn [char_traits_length].
    change (Z.of_nat 0) with 0 in Hz. rewrite Z.add_0_r in Hz.
    now rewrite Hz.
  - destruct fuel as [| fuel]; [lia |]. cbn [char_traits_length].
    assert (H0 : m s <> 0).
    { specialize (Hnz 0). rewrite Z.add_0_r in Hnz. apply Hnz. lia. }
    apply Z.eqb_neq in H0 as ->.
    rewrite (IH (s + 1) fuel).
    + cbn [option_map]. f_equal. lia.
    + intros i Hi. replace (s + 1 + i) with (s + (i + 1)) by lia.
      apply Hnz. lia.
    + replace (s + 1 + Z.of_nat k) with (s + Z.of_nat (S k)) by lia.
      exact Hz.
    + lia.
Qed.

(** C8.  The constructors and observers of [basic_string_view]:
    - from a terminated sequence, [size()] is the number of characters
      before the first null character, found by the scan (which ends as soon
      as it has fuel for those characters and the terminator);
    - from a pointer pair, [size()] is [last - first];
    - a copy has the same pointer and the same length, and reads the very
      same memory as the original, in every memory: no text is duplicated;
    - [empty()] is true exactly when [size()] is 0. *)
Theorem string_view_construction :
  (forall (m : memory) (zstr : pointer) (n : Z) (fuel : nat),
      0 <= n ->
      (forall i, 0 <= i < n -> m (zstr + i) <> 0) ->
      m (zstr + n) = 0 ->
      (Z.to_nat n < fuel)%nat ->
      exists v,
        string_view.of_zstr fuel m zstr = Some v
        /\ string_view.size v = n /\ string_view.data v = zstr)
  /\ (forall first last : pointer,
        0 <= last - first < size_t_modulus ->
        string_view.size (string_view.of_range first last) = last - first
        /\ string_view.begin (string_view.of_range first last) = first
        /\ string_view.end_ (string_view.of_range first last) = last)
  /\ (forall v : basic_string_view,
        string_view.data (string_view.copy v) = string_view.data v
        /\ string_view.size (string_view.copy v) = string_view.size v
        /\ forall m : memory,
            string_view.chars m (string_view.copy v) = string_view.chars m v)
  /\ (forall v : basic_string_view,
        string_view.empty v = true <-> string_view.size v = 0).
Proof.
  split; [| split; [| split]].
  - intros m zstr n fuel Hn Hnz Hz Hfuel.
    exists (mk_view zstr n). unfold string_view.of_zstr.
    rewrite (char_traits_length_first_null m (Z.to_nat n)).
    + rewrite Z2Nat.id by assumption. auto.
    + intros i Hi. apply Hnz. lia.
    + rewrite Z2Nat.id by assumption. exact Hz.
    + exact Hfuel.
  - intros first last H.
    unfold string_view.of_range, string_view.size, string_view.begin,
      string_view.end_. cbn [_begin _size].
    rewrite to_size_t_small by assumption. repeat split; lia.
  - intros v. repeat split.
  - intros v. unfold string_view.empty, string_view.size. apply Z.eqb_eq.
Qed.

Lemma string_view_hello_witness :
  let m := store_zstr (fun _ => 7) 1000 "hello" in
  (exists v,
      string_view.of_zstr 6 m 1000 = Some v
      /\ string_view.size v = 5 /\ string_view.data v = 1000)
  /\ string_view.size (string_view.of_range 1000 1005) = 5.
Proof.
  intros m.
  destruct string_view_construction as (Hz & Hr & _).
  split.
  - apply (Hz m 1000 5 6%nat).
    + lia.
    + intros i Hi.
      assert (Hc : i = 0 \/ i = 1 \/ i = 2 \/ i = 3 \/ i = 4) by lia.
      destruct Hc as [-> | [-> | [-> | [-> | ->]]]]; vm_compute; discriminate.
    + reflexivity.
    + vm_compute. lia.
  - apply (Hr 1000 1005). unfold size_t_modulus. lia.
Defined.

(** ** The overload set and the binder *)

Lemma format_value_thunk_own_type {W : Type}
    (format_value_builtin :
       W -> builtin_value -> basic_string_view -> memory -> memory * W)
    (a : argument) (out : W) (spec : basic_string_view) (m : memory) :
  format_value_thunk format_value_builtin (type_of a) out (Some a) spec m =
  format_value format_value_builtin out a spec m.
Proof.
  unfold format_value_thunk.
  destruct (arg_type_eq_dec (type_of a) (type_of a)) as [_ | Hne];
    [reflexivity | now elim Hne].
Qed.

(** C6.  For an enumeration type [EnumT] with any underlying type and a value
    of it, [format_value(out, value, spec)] is the call of [format_value] on
    the value converted to the underlying type, on every writer, spec and
    memory, whatever the built-in overloads do; the same holds when the
    calls are made through the thunks [format] and [printf] bind. *)
Theorem format_value_enum_as_underlying :
  forall (W : Type)
         (format_value_builtin :
            W -> builtin_value -> basic_string_view -> memory -> memory * W)
         (out : W) (EnumT : string) (underlying : integral_type) (value : Z)
         (spec : basic_string_view) (m : memory),
    let v := enum_arg EnumT underlying value in
    let u := builtin_arg (to_underlying underlying value) in
    format_value format_value_builtin out v spec m =
    format_value format_value_builtin out u spec m
    /\ format_value_thunk format_value_builtin (type_of v) out (Some v) spec m =
       format_value_thunk format_value_builtin (type_of u) out (Some u) spec m.
Proof.
  intros W fvb out EnumT underlying value spec m v u.
  assert (H : format_value fvb out v spec m = format_value fvb out u spec m).
  { subst v u. cbn [format_value]. unfold format_value_enum. reflexivity. }
  split; [exact H |].
  now rewrite !format_value_thunk_own_type.
Qed.

(** C7.  For a pointer type other than the four with an overload of their
    own (the two character pointers and the two void pointers) and a pointer
    of it, [format_value(out, p, spec)] is the call of [format_value] on the
    same address as a pointer to const void, i.e. the pointer is rendered as
    its address; the same holds through the thunks. *)
Theorem format_value_pointer_as_address :
  forall (W : Type)
         (format_value_builtin :
            W -> builtin_value -> basic_string_view -> memory -> memory * W)
         (out : W) (PointerT : string) (p : pointer)
         (spec : basic_string_view) (m : memory),
    let v := pointer_arg PointerT p in
    let q := builtin_arg (of_void_const_ptr p) in
    format_value format_value_builtin out v spec m =
    format_value format_value_builtin out q spec m
    /\ format_value_thunk format_value_builtin (type_of v) out (Some v) spec m =
       format_value_thunk format_value_builtin (type_of q) out (Some q) spec m.
Proof.
  intros W fvb out PointerT p spec m v q.
  assert (H : format_value fvb out v spec m = format_value fvb out q spec m).
  { subst v q. cbn [format_value].
    unfold format_value_pointer, to_void_const_ptr. reflexivity. }
  split; [exact H |].
  now rewrite !format_value_thunk_own_type.
Qed.

Lemma nth_error_map_snoc {A B : Type} (f : A -> B) (z : B) (l : list A) :
  List.length (map f l ++ [z]) = S (List.length l)
  /\ nth_error (map f l ++ [z]) (List.length l) = Some z
  /\ last (map f l ++ [z]) z = z
  /\ forall i a, nth_error l i = Some a ->
                 nth_error (map f l ++ [z]) i = Some (f a).
Proof.
  split; [| split; [| split]].
  - rewrite length_app, length_map. simpl. lia.
  - rewrite nth_error_app2 by (rewrite length_map; lia).
    rewrite length_map, Nat.sub_diag. reflexivity.
  - apply last_last.
  - intros i a H.
    rewrite nth_error_app1
      by (rewrite length_map; apply nth_error_Some; congruence).
    now rewrite nth_error_map, H.
Qed.

(** C9.  [format] and [printf] with the arguments [args], [N] of them, call
    the engine with the count [N] and with two arrays of length [N + 1]: slot
    [i < N] of the first refers to argument [i] and slot [i] of the second is
    the thunk of that argument's type; slot [N], the last, is null in both. *)
Theorem binder_arrays :
  forall (W R : Type)
         (format_value_builtin :
            W -> builtin_value -> basic_string_view -> memory -> memory * W)
         (format_impl printf_impl :
            W -> basic_string_view -> Z ->
            list (option (BasicFormatterThunk W)) ->
            list FormatterParameter -> memory -> R)
         (out : W) (fmt : basic_string_view) (args : list argument)
         (m : memory),
    let N := List.length args in
    let values := values_of args in
    let funcs := funcs_of format_value_builtin args in
    format format_value_builtin R format_impl out fmt args m =
      format_impl out fmt (Z.of_nat N) funcs values m
    /\ printf format_value_builtin R printf_impl out fmt args m =
         printf_impl out fmt (Z.of_nat N) funcs values m
    /\ List.length values = S N /\ List.length funcs = S N
    /\ nth_error values N = Some None /\ nth_error funcs N = Some None
    /\ last values None = None /\ last funcs None = None
    /\ forall i a,
         nth_error args i = Some a ->
         nth_error values i = Some (Some a)
         /\ nth_error funcs i =
            Some (Some (format_value_thunk format_value_builtin (type_of a))).
Proof.
  intros W R fvb fimpl pimpl out fmt args m N values funcs.
  destruct (nth_error_map_snoc (fun a => Some a) None args)
    as (Hvl & Hvn & Hvlast & Hvi).
  destruct (nth_error_map_snoc
              (fun a => Some (format_value_thunk fvb (type_of a))) None args)
    as (Hfl & Hfn & Hflast & Hfi).
  repeat split; try assumption.
  - now apply Hvi.
  - now apply Hfi.
Qed.

Lemma binder_arrays_witness :
  let args := [example.A; enum_arg "colour" (underlying_int signed_int) 2] in
  List.length (values_of args) = 3%nat
  /\ nth_error (values_of args) 2 = Some None
  /\ nth_error (values_of args) 1 =
     Some (Some (enum_arg "colour" (underlying_int signed_int) 2)).
Proof.
  intros args.
  destruct (binder_arrays (basic_fixed_writer 64) unit
              example.format_value_builtin
              (fun _ _ _ _ _ _ => tt) (fun _ _ _ _ _ _ => tt)
              (mk_writer 3000 3000) (mk_view 1000 0) args (fun _ => 0))
    as (_ & _ & Hlen & _ & Hnull & _ & _ & _ & Hslot).
  split; [exact Hlen |].
  split; [exact Hnull |].
  exact (proj1 (Hslot 1%nat _ eq_refl)).
Defined.

(** ** The engines *)

Section EngineSteps.

Context {W : Type} {writer : basic_format_writer W}.

(** Copying literal text to the sink is one [write] of the view and touches
    neither the counter nor the argument arrays. *)
Lemma emit_spec (e : engine W) (p : pointer) (n : Z) :
  (mem (emit e p n), sink (emit e p n)) =
    write (sink e) (string_view.of_ptr_size p n) (mem e)
  /\ next_index (emit e p n) = next_index e
  /\ reads (emit e p n) = reads e.
Proof.
  unfold emit.
  destruct (write (sink e) (string_view.of_ptr_size p n) (mem e)) as [m' out'].
  auto.
Qed.

Lemma invoke_spec (funcs : list (option (BasicFormatterThunk W)))
    (values : list FormatterParameter) (index : Z)
    (spec : basic_string_view) (e e' : engine W) :
  invoke funcs values index spec e = Some e' ->
  next_index e' = next_index e /\ reads e' = reads e ++ [index].
Proof.
  unfold invoke.
  destruct (nth_error funcs (Z.to_nat index)) as [[thunk |] |]; try discriminate.
  destruct (nth_error values (Z.to_nat index)) as [value |]; try discriminate.
  destruct (thunk (sink e) value spec (mem e)) as [m' out'].
  intros [= <-]. auto.
Qed.

(** The thunk sees the sink and the memory, not the counter. *)
Lemma invoke_set_next_index (funcs : list (option (BasicFormatterThunk W)))
    (values : list FormatterParameter) (index k : Z)
    (spec : basic_string_view) (e : engine W) :
  invoke funcs values index spec (set_next_index k e) =
  option_map (set_next_index k) (invoke funcs values index spec e).
Proof.
  unfold invoke, set_next_index. cbn [sink mem reads next_index].
  destruct (nth_error funcs (Z.to_nat index)) as [[thunk |] |]; try reflexivity.
  destruct (nth_error values (Z.to_nat index)) as [value |]; try reflexivity.
  destruct (thunk (sink e) value spec (mem e)) as [m' out']. reflexivity.
Qed.

End EngineSteps.

(** C5.  In the Literal state of the brace-style scan a doubled opening
    brace, and likewise a doubled closing brace, is consumed as a pair: the
    scan copies one character, a brace, to the sink and goes on in the
    Literal state behind the pair, with the counter and the record of
    argument reads as they were, so no placeholder has begun or ended.  In
    the text state of the printf-style scan a doubled percent sign is
    consumed in the same way, and no specifier has begun.  On a fixed
    writer: the template [a{{b}}c] gives [a{b}c], the template [{{}}] gives
    a pair of braces although there is no argument, and [100%%] gives
    [100%]. *)
Theorem doubled_escapes_emit_one_literal :
  forall (W : Type) (writer : basic_format_writer W) (count : Z)
         (funcs : list (option (BasicFormatterThunk W)))
         (values : list FormatterParameter)
         (rest : list CharT) (p : pointer) (e : engine W),
    (brace_scan count funcs values (open_brace :: open_brace :: rest) p
       Literal e =
     brace_scan count funcs values rest (p + 2) Literal (emit e p 1)
     /\ brace_scan count funcs values (close_brace :: close_brace :: rest) p
          Literal e =
        brace_scan count funcs values rest (p + 2) Literal (emit e p 1)
     /\ printf_scan count funcs values (percent :: percent :: rest) p Text e =
        printf_scan count funcs values rest (p + 2) Text (emit e p 1))
    /\ ((mem (emit e p 1), sink (emit e p 1)) =
          write (sink e) (string_view.of_ptr_size p 1) (mem e)
        /\ string_view.chars (mem e) (string_view.of_ptr_size p 1) = [mem e p]
        /\ next_index (emit e p 1) = next_index e
        /\ reads (emit e p 1) = reads e)
    /\ (example.format_into_fixed "a{{b}}c" [] =
          (completed, snd (example.format_into_fixed "a{{b}}c" []))
        /\ output (example.format_into_fixed "a{{b}}c" []) = lit "a{b}c"
        /\ fst (example.format_into_fixed "{{}}" []) = completed
        /\ output (example.format_into_fixed "{{}}" []) = lit "{}"
        /\ reads (snd (example.format_into_fixed "{{}}" [])) = []
        /\ fst (example.printf_into_fixed "100%%" []) = completed
        /\ output (example.printf_into_fixed "100%%" []) = lit "100%"
        /\ reads (snd (example.printf_into_fixed "100%%" [])) = []).
Proof.
  intros W writer count funcs values rest p e.
  split; [| split].
  - repeat split; reflexivity.
  - destruct (emit_spec e p 1) as (Hw & Hn & Hr).
    repeat split; assumption.
  - repeat split; vm_compute; reflexivity.
Qed.

Section Resolve.

Context {W : Type} {writer : basic_format_writer W}.
Variable count : Z.
Variable funcs : list (option (BasicFormatterThunk W)).
Variable values : list FormatterParameter.

Lemma resolve_completed (explicit : option Z) (spec : basic_string_view)
    (e e' : engine W) :
  resolve count funcs values explicit spec e = (completed, e') ->
  let index := match explicit with Some i => i | None => next_index e end in
  index < count
  /\ reads e' = reads e ++ [index]
  /\ next_index e' =
     match explicit with
     | Some _ => next_index e
     | None => next_index e + 1
     end.
Proof.
  intros H index. unfold resolve in H. fold index in H.
  destruct (count <=? index) eqn:Hc; [discriminate |].
  apply Z.leb_gt in Hc.
  destruct (invoke funcs values index spec e) as [e1 |] eqn:Hi;
    [| discriminate].
  destruct (invoke_spec funcs values index spec e e1 Hi) as [Hn Hr].
  injection H as <-. cbn [reads next_index].
  destruct explicit; rewrite Hn; auto.
Qed.

Lemma resolve_out_of_range (explicit : option Z) (spec : basic_string_view)
    (e : engine W) :
  count <= match explicit with Some i => i | None => next_index e end ->
  resolve count funcs values explicit spec e = (template_fault, e).
Proof.
  unfold resolve. intros H. apply Z.leb_le in H. now rewrite H.
Qed.

Lemma resolve_explicit_ignores_counter (i k : Z) (spec : basic_string_view)
    (e : engine W) :
  resolve count funcs values (Some i) spec (set_next_index k e) =
  (fst (resolve count funcs values (Some i) spec e),
   set_next_index k (snd (resolve count funcs values (Some i) spec e))).
Proof.
  unfold resolve. destruct (count <=? i); [reflexivity |].
  rewrite invoke_set_next_index.
  destruct (invoke funcs values i spec e) as [e1 |]; reflexivity.
Qed.

End Resolve.

(** *** The scan over a whole placeholder *)

Section Placeholders.

Context {W : Type} {writer : basic_format_writer W}.
Variable count : Z.
Variable funcs : list (option (BasicFormatterThunk W)).
Variable values : list FormatterParameter.

(** What the scan does with what [resolve] returns. *)
Lemma brace_scan_same_address (text : list CharT) (p q : pointer)
    (s : scan_state) (e : engine W) :
  p = q ->
  brace_scan count funcs values text p s e =
  brace_scan count funcs values text q s e.
Proof. now intros ->. Qed.

(** A prefix of the template whose scan completes leaves the scan in the
    Literal state at its end: the scan of the whole template goes on from
    there. *)
Lemma brace_scan_app (n : nat) :
  forall (t1 t2 : list CharT) (p : pointer) (s : scan_state)
         (e e1 : engine W),
    (List.length t1 <= n)%nat ->
    brace_scan count funcs values t1 p s e = (completed, e1) ->
    brace_scan count funcs values (t1 ++ t2) p s e =
    brace_scan count funcs values t2 (p + Z.of_nat (List.length t1))
      Literal e1.
Proof.
  induction n as [| n IH]; intros t1 t2 p s e e1 Hlen H;
    (destruct t1 as [| c rest];
     [ destruct s; cbn [brace_scan] in H; [| discriminate];
       injection H as <-; cbn [app List.length];
       apply brace_scan_same_address; lia | ]);
    [simpl in Hlen; lia |].
  simpl in Hlen.
  assert (Hnext : forall r q s' e',
             (List.length r <= n)%nat ->
             p + Z.of_nat (List.length (c :: rest)) =
               q + Z.of_nat (List.length r) ->
             brace_scan count funcs values r q s' e' = (completed, e1) ->
             brace_scan count funcs values (r ++ t2) q s' e' =
             brace_scan count funcs values t2
               (p + Z.of_nat (List.length (c :: rest))) Literal e1).
  { intros r q s' e' Hr Hq Hc. rewrite (IH r t2 q s' e' e1 Hr Hc).
    apply brace_scan_same_address. lia. }
  assert (Hresolve : forall index spec,
             match resolve count funcs values index spec e with
             | (completed, e') =>
                 brace_scan count funcs values rest (p + 1) Literal e'
             | stopped => stopped
             end = (completed, e1) ->
             match resolve count funcs values index spec e with
             | (completed, e') =>
                 brace_scan count funcs values (rest ++ t2) (p + 1) Literal e'
             | stopped => stopped
             end =
             brace_scan count funcs values t2
               (p + Z.of_nat (List.length (c :: rest))) Literal e1).
  { intros index spec Hc.
    destruct (resolve count funcs values index spec e) as [[| |] e'];
      try discriminate.
    apply Hnext; [lia | cbn [List.length]; lia | exact Hc]. }
  cbn [brace_scan app] in H |- *.
  destruct s as [| [index | index spec_begin spec_size]].
  - destruct (c =? open_brace).
    + destruct rest as [| c' rest']; [discriminate |].
      simpl in Hlen. cbn [app].
      destruct (c' =? open_brace).
      * apply Hnext; [lia | cbn [List.length]; lia | exact H].
      * apply (Hnext (c' :: rest'));
          [simpl; lia | cbn [List.length]; lia | exact H].
    + destruct (c =? close_brace).
      * destruct rest as [| c' rest']; [discriminate |].
        simpl in Hlen. cbn [app].
        destruct (c' =? close_brace); [| discriminate].
        apply Hnext; [lia | cbn [List.length]; lia | exact H].
      * apply Hnext; [lia | cbn [List.length]; lia | exact H].
  - destruct (is_digit c).
    + apply Hnext; [lia | cbn [List.length]; lia | exact H].
    + destruct (c =? colon).
      * apply Hnext; [lia | cbn [List.length]; lia | exact H].
      * destruct (c =? close_brace); [| discriminate].
        now apply Hresolve.
  - destruct (c =? close_brace).
    + now apply Hresolve.
    + apply Hnext; [lia | cbn [List.length]; lia | exact H].
Qed.

(** In Placeholder, the digits of the index are consumed one by one. *)
Lemma brace_scan_digits (ds : list CharT) :
  forall (tail : list CharT) (p : pointer) (index : option Z) (e : engine W),
    Forall (fun c => is_digit c = true) ds ->
    brace_scan count funcs values (ds ++ tail) p
      (Placeholder (reading_index index)) e =
    brace_scan count funcs values tail (p + Z.of_nat (List.length ds))
      (Placeholder
         (reading_index
            match ds with
            | [] => index
            | _ :: _ =>
                Some (fold_left (fun acc c => 10 * acc + digit_value c) ds
                        match index with Some i => i | None => 0 end)
            end)) e.
Proof.
  induction ds as [| d ds IH]; intros tail p index e Hds.
  - cbn [app List.length]. apply brace_scan_same_address. lia.
  - inversion Hds as [| d' ds' Hd Hrest]; subst d' ds'.
    cbn [app brace_scan]. rewrite Hd. rewrite (IH tail _ _ e Hrest).
    cbn [fold_left].
    replace (p + 1 + Z.of_nat (List.length ds))
      with (p + Z.of_nat (List.length (d :: ds)))
      by (cbn [List.length]; lia).
    destruct ds; reflexivity.
Qed.

(** Behind the separator, the spec text is consumed up to the closing
    brace. *)
Lemma brace_scan_spec_text (t : list CharT) :
  forall (tail : list CharT) (p : pointer) (index : option Z)
         (spec_begin : pointer) (spec_size : Z) (e : engine W),
    Forall (fun c => c <> close_brace) t ->
    brace_scan count funcs values (t ++ tail) p
      (Placeholder (reading_spec index spec_begin spec_size)) e =
    brace_scan count funcs values tail (p + Z.of_nat (List.length t))
      (Placeholder
         (reading_spec index spec_begin
            (spec_size + Z.of_nat (List.length t)))) e.
Proof.
  induction t as [| c t IH]; intros tail p index spec_begin spec_size e Ht.
  - cbn [app List.length]. rewrite !Z.add_0_r. reflexivity.
  - inversion Ht as [| c' t' Hc Hrest]; subst c' t'.
    cbn [app brace_scan]. apply Z.eqb_neq in Hc. rewrite Hc.
    rewrite (IH tail _ index spec_begin _ e Hrest).
    replace (p + 1 + Z.of_nat (List.length t))
      with (p + Z.of_nat (List.length (c :: t)))
      by (cbn [List.length]; lia).
    replace (spec_size + 1 + Z.of_nat (List.length t))
      with (spec_size + Z.of_nat (List.length (c :: t)))
      by (cbn [List.length]; lia).
    reflexivity.
Qed.

Lemma digit_is_no_brace (c : CharT) :
  is_digit c = true -> (c =? open_brace) = false.
Proof.
  unfold is_digit, open_brace. intros H.
  apply andb_prop in H as [_ H]. apply Z.leb_le in H. apply Z.eqb_neq. lia.
Qed.

(** A single opening brace goes to Placeholder. *)
Lemma brace_scan_open (c : CharT) (tail : list CharT) (p : pointer)
    (e : engine W) :
  (c =? open_brace) = false ->
  brace_scan count funcs values (open_brace :: c :: tail) p Literal e =
  brace_scan count funcs values (c :: tail) (p + 1)
    (Placeholder (reading_index None)) e.
Proof.
  intros Hc. cbn [brace_scan]. rewrite Z.eqb_refl, Hc. reflexivity.
Qed.

(** From the Literal state, a whole placeholder is scanned into one call of
    [resolve], with the index its digits denote (none without digits) and
    the view of its spec text; on success the scan goes on in the Literal
    state behind the closing brace, otherwise it stops there. *)
Lemma brace_scan_placeholder (ds : list CharT) (sp : option (list CharT))
    (rest : list CharT) (p : pointer) (e : engine W) :
  Forall (fun c => is_digit c = true) ds ->
  match sp with
  | Some t => Forall (fun c => c <> close_brace) t
  | None => True
  end ->
  brace_scan count funcs values (placeholder_chars ds sp ++ rest) p Literal e =
  match
    resolve count funcs values (explicit_index ds) (placeholder_spec p ds sp) e
  with
  | (completed, e') =>
      brace_scan count funcs values rest
        (p + Z.of_nat (List.length (placeholder_chars ds sp))) Literal e'
  | stopped => stopped
  end.
Proof.
  intros Hds Hsp.
  assert (Hindex :
            match ds with
            | [] => None
            | _ :: _ =>
                Some (fold_left (fun acc c => 10 * acc + digit_value c) ds 0)
            end = explicit_index ds) by (destruct ds; reflexivity).
  assert (Hopen :
            forall tail,
              brace_scan count funcs values
                (open_brace :: ds ++ tail) p Literal e =
              brace_scan count funcs values tail
                (p + 1 + Z.of_nat (List.length ds))
                (Placeholder (reading_index (explicit_index ds))) e
              \/ tail = [] /\ ds = []
              \/ exists c tail', ds = [] /\ tail = c :: tail'
                                 /\ (c =? open_brace) = true).
  { intros tail.
    destruct ds as [| d ds'].
    - destruct tail as [| c tail']; [right; left; auto |].
      destruct (c =? open_brace) eqn:Hc;
        [right; right; exists c, tail'; auto |].
      left. cbn [app List.length explicit_index].
      rewrite (brace_scan_same_address (c :: tail') (p + 1 + Z.of_nat 0)
                 (p + 1)) by (cbn; lia).
      now apply brace_scan_open.
    - left. inversion Hds as [| d' ds'' Hd Hrest]; subst d' ds''.
      cbn [app]. rewrite (brace_scan_open d (ds' ++ tail) p e)
        by now apply digit_is_no_brace.
      change (d :: ds' ++ tail) with ((d :: ds') ++ tail).
      rewrite (brace_scan_digits (d :: ds') tail (p + 1) None e Hds).
      rewrite Hindex. reflexivity. }
  assert (Hlen : Z.of_nat (List.length (placeholder_chars ds sp)) =
                 1 + Z.of_nat (List.length ds)
                 + match sp with
                   | Some t => 1 + Z.of_nat (List.length t)
                   | None => 0
                   end + 1).
  { unfold placeholder_chars. cbn [List.length].
    rewrite !length_app. destruct sp; cbn [List.length]; lia. }
  rewrite Hlen. clear Hlen.
  unfold placeholder_chars. cbn [app]. rewrite <- !app_assoc.
  destruct (Hopen ((match sp with
                    | Some t => colon :: t
                    | None => []
                    end ++ [close_brace]) ++ rest))
    as [Heq | [[Hnil _] | (c & tail' & _ & Htail & Hc)]].
  - rewrite <- !app_assoc in Heq. rewrite Heq. clear Heq Hopen.
    destruct sp as [t |].
    + cbn [app brace_scan]. change (is_digit colon) with false.
      rewrite Z.eqb_refl.
      rewrite (brace_scan_spec_text t (close_brace :: rest) _
                 (explicit_index ds) _ 0 e Hsp).
      cbn [app brace_scan]. rewrite Z.eqb_refl. rewrite Z.add_0_l.
      unfold placeholder_spec.
      destruct (resolve count funcs values (explicit_index ds)
                  (string_view.of_ptr_size
                     (p + 1 + Z.of_nat (List.length ds) + 1)
                     (Z.of_nat (List.length t))) e) as [[| |] e'];
        try reflexivity.
      apply brace_scan_same_address. lia.
    + cbn [app brace_scan]. change (is_digit close_brace) with false.
      change (close_brace =? colon) with false. rewrite Z.eqb_refl.
      unfold placeholder_spec.
      destruct (resolve count funcs values (explicit_index ds)
                  (string_view.of_ptr_size
                     (p + 1 + Z.of_nat (List.length ds)) 0) e)
        as [[| |] e']; try reflexivity.
      apply brace_scan_same_address. lia.
  - destruct sp; discriminate Hnil.
  - destruct sp as [t |]; cbn [app] in Htail; injection Htail as <- _;
      discriminate Hc.
Qed.

End Placeholders.

(** C3.  The counter of the brace-style engine.  A run starts with the
    counter at 0.  From the Literal state, at any point of a template and in
    any state of the run, the scan of a whole placeholder (with or without
    index, with or without spec text) reads the argument arrays at one slot
    and goes on behind the closing brace: without an index the slot is the
    value of the counter and the counter goes on one higher; with the index
    [i] the slot is [i] and the counter goes on as it was, and the counter
    has no part in the call of the thunk.  A prefix of the template that has
    been scanned leaves the scan at such a point.  On a fixed writer, the
    template [{} {1} {}] with the arguments A and B gives [A B B] (reads at
    0, 1, 1; counter 2 at the end), [{1} {}] gives [B A], [{:x} {}] gives
    [A B] and [{0:x} {}] gives [A A]. *)
Theorem brace_auto_increment :
  forall (W : Type) (writer : basic_format_writer W) (count : Z)
         (funcs : list (option (BasicFormatterThunk W)))
         (values : list FormatterParameter),
    (forall out fmt m,
        brace_engine.format_impl out fmt count funcs values m =
        brace_scan count funcs values (string_view.chars m fmt)
          (string_view.begin fmt) Literal (mk_engine out m 0 []))
    /\ (forall rest p e,
          brace_scan count funcs values (open_brace :: close_brace :: rest) p
            Literal e =
          match
            resolve count funcs values None
              (string_view.of_ptr_size (p + 1) 0) e
          with
          | (completed, e') =>
              brace_scan count funcs values rest (p + 1 + 1) Literal e'
          | stopped => stopped
          end)
    /\ (forall spec e e',
          resolve count funcs values None spec e = (completed, e') ->
          reads e' = reads e ++ [next_index e]
          /\ next_index e' = next_index e + 1)
    /\ (forall i spec e e',
          resolve count funcs values (Some i) spec e = (completed, e') ->
          reads e' = reads e ++ [i] /\ next_index e' = next_index e)
    /\ (forall i k spec e,
          resolve count funcs values (Some i) spec (set_next_index k e) =
          (fst (resolve count funcs values (Some i) spec e),
           set_next_index k
             (snd (resolve count funcs values (Some i) spec e))))
    /\ (let r := example.format_into_fixed "{} {1} {}" [example.A; example.B] in
        fst r = completed
        /\ output r = lit "A B B"
        /\ reads (snd r) = [0; 1; 1]
        /\ next_index (snd r) = 2)
    /\ (forall ds sp rest p e,
          Forall (fun c => is_digit c = true) ds ->
          match sp with
          | Some t => Forall (fun c => c <> close_brace) t
          | None => True
          end ->
          let index :=
            match explicit_index ds with
            | Some i => i
            | None => next_index e
            end in
          let counter :=
            match explicit_index ds with
            | Some _ => next_index e
            | None => next_index e + 1
            end in
          brace_scan count funcs values (placeholder_chars ds sp ++ rest) p
            Literal e =
          if count <=? index then (template_fault, e)
          else
            match invoke funcs values index (placeholder_spec p ds sp) e with
            | Some e' =>
                brace_scan count funcs values rest
                  (p + Z.of_nat (List.length (placeholder_chars ds sp)))
                  Literal (set_next_index counter e')
            | None => (undefined, e)
            end)
    /\ (forall index spec e e',
          invoke funcs values index spec e = Some e' ->
          reads e' = reads e ++ [index]
          /\ next_index e' = next_index e
          /\ forall k,
               invoke funcs values index spec (set_next_index k e) =
               Some (set_next_index k e'))
    /\ (forall t1 t2 p e e1,
          brace_scan count funcs values t1 p Literal e = (completed, e1) ->
          brace_scan count funcs values (t1 ++ t2) p Literal e =
          brace_scan count funcs values t2 (p + Z.of_nat (List.length t1))
            Literal e1)
    /\ (let r := example.format_into_fixed "{1} {}" [example.A; example.B] in
        fst r = completed /\ output r = lit "B A"
        /\ reads (snd r) = [1; 0] /\ next_index (snd r) = 1)
    /\ (let r := example.format_into_fixed "{:x} {}" [example.A; example.B] in
        fst r = completed /\ output r = lit "A B"
        /\ reads (snd r) = [0; 1] /\ next_index (snd r) = 2)
    /\ (let r :=
          example.format_into_fixed "{0:x} {}" [example.A; example.B] in
        fst r = completed /\ output r = lit "A A"
        /\ reads (snd r) = [0; 0] /\ next_index (snd r) = 1).
Proof.
  intros W writer count funcs values.
  split; [reflexivity |].
  split; [reflexivity |].
  split.
  { intros spec e e' H.
    destruct (resolve_completed count funcs values None spec e e' H)
      as (_ & Hr & Hn). auto. }
  split.
  { intros i spec e e' H.
    destruct (resolve_completed count funcs values (Some i) spec e e' H)
      as (_ & Hr & Hn). auto. }
  split; [apply resolve_explicit_ignores_counter |].
  split; [repeat split; vm_compute; reflexivity |].
  split.
  { intros ds sp rest p e Hds Hsp index counter.
    rewrite (brace_scan_placeholder count funcs values ds sp rest p e Hds Hsp).
    unfold resolve. fold index.
    destruct (count <=? index); [reflexivity |].
    destruct (invoke funcs values index (placeholder_spec p ds sp) e)
      as [e' |] eqn:Hi; [| reflexivity].
    destruct (invoke_spec funcs values index _ e e' Hi) as [Hn _].
    unfold set_next_index. subst counter. rewrite Hn.
    destruct (explicit_index ds); reflexivity. }
  split.
  { intros index spec e e' Hi.
    destruct (invoke_spec funcs values index spec e e' Hi) as [Hn Hr].
    split; [exact Hr |]. split; [exact Hn |].
    intros k. rewrite invoke_set_next_index, Hi. reflexivity. }
  split.
  { intros t1 t2 p e e1 H.
    now apply (brace_scan_app count funcs values (List.length t1)). }
  repeat split; vm_compute; reflexivity.
Qed.

Lemma brace_auto_increment_witness :
  let m := example.text_memory "{} {1} {}" in
  let w : basic_fixed_writer 64 := mk_writer 3000 3000 in
  let funcs := funcs_of example.format_value_builtin [example.A; example.B] in
  let values := values_of [example.A; example.B] in
  let e := mk_engine w m 1 [0] in
  let r := resolve 2 funcs values None (mk_view 1000 0) e in
  (fst r = completed /\ reads (snd r) = [0; 1] /\ next_index (snd r) = 2)
  /\ output (example.format_into_fixed "{} {1} {}" [example.A; example.B]) =
     lit "A B B"
  /\ (let r1 := brace_scan 2 funcs values (lit "{1:x}") 1000 Literal e in
      fst r1 = completed
      /\ reads (snd r1) = [0; 1] /\ next_index (snd r1) = 1).
Proof.
  intros m w funcs values e r.
  destruct (brace_auto_increment (basic_fixed_writer 64) _ 2 funcs values)
    as (_ & _ & Hauto & _ & _ & Hrun & Hscan & _).
  split; [| split].
  - split; [reflexivity |].
    exact (Hauto (mk_view 1000 0) e (snd r) eq_refl).
  - exact (proj1 (proj2 Hrun)).
  - assert (Hds : Forall (fun c => is_digit c = true) (lit "1"))
      by (repeat constructor).
    assert (Hsp : Forall (fun c => c <> close_brace) (lit "x"))
      by (repeat constructor; discriminate).
    pose proof (Hscan (lit "1") (Some (lit "x")) [] 1000 e Hds Hsp) as H.
    change (placeholder_chars (lit "1") (Some (lit "x")) ++ [])
      with (lit "{1:x}") in H.
    rewrite H. vm_compute. repeat split; reflexivity.
Defined.

(** *** No read outside the arrays [format] binds *)

Section BoundArrays.

Context {W : Type} {writer : basic_format_writer W}.
Variable format_value_builtin :
  W -> builtin_value -> basic_string_view -> memory -> memory * W.
Variable args : list argument.

Local Abbreviation N := (Z.of_nat (List.length args)).
Local Abbreviation funcs := (funcs_of format_value_builtin args).
Local Abbreviation values := (values_of args).
Local Abbreviation in_range := (fun i : Z => 0 <= i < N).

(** Below the count both arrays hold a slot that is not null. *)
Lemma invoke_in_range (index : Z) (spec : basic_string_view) (e : engine W) :
  0 <= index < N -> exists e', invoke funcs values index spec e = Some e'.
Proof.
  intros H.
  destruct (nth_error args (Z.to_nat index)) as [a |] eqn:Ha.
  - destruct (nth_error_map_snoc (fun a => Some a) None args)
      as (_ & _ & _ & Hv).
    destruct (nth_error_map_snoc
                (fun a => Some (format_value_thunk format_value_builtin
                                  (type_of a))) None args)
      as (_ & _ & _ & Hf).
    unfold invoke, funcs_of, values_of, FormatterParameter.
    rewrite (Hf _ _ Ha), (Hv _ _ Ha).
    destruct (format_value_thunk format_value_builtin (type_of a) (sink e)
                (Some a) spec (mem e)) as [m' out'].
    eexists. reflexivity.
  - apply nth_error_None in Ha. lia.
Qed.

Lemma resolve_safe (explicit : option Z) (spec : basic_string_view)
    (e : engine W) :
  match explicit with Some i => 0 <= i | None => True end ->
  0 <= next_index e ->
  Forall in_range (reads e) ->
  fst (resolve N funcs values explicit spec e) <> undefined
  /\ Forall in_range (reads (snd (resolve N funcs values explicit spec e)))
  /\ 0 <= next_index (snd (resolve N funcs values explicit spec e)).
Proof.
  intros Hi Hn Hr. unfold resolve.
  set (index := match explicit with Some i => i | None => next_index e end).
  assert (H0 : 0 <= index) by (subst index; destruct explicit; assumption).
  destruct (N <=? index) eqn:Hc.
  - cbn [fst snd]. repeat split; [discriminate | assumption | assumption].
  - apply Z.leb_gt in Hc.
    destruct (invoke_in_range index spec e (conj H0 Hc)) as [e' He'].
    rewrite He'. cbn [fst snd reads next_index].
    destruct (invoke_spec _ _ _ _ _ _ He') as [Hn' Hr'].
    repeat split.
    + discriminate.
    + rewrite Hr'. apply Forall_app. split; [assumption |].
      constructor; [lia | constructor].
    + destruct explicit; lia.
Qed.

Lemma is_digit_value (c : CharT) : is_digit c = true -> 0 <= digit_value c.
Proof.
  unfold is_digit, digit_value. intros H.
  apply andb_prop in H as [H _]. apply Z.leb_le in H. lia.
Qed.

(** The scan keeps every read of the arrays below the count, from any state
    whose pending index and counter are not negative. *)
Lemma brace_scan_safe (n : nat) :
  forall (text : list CharT) (p : pointer) (s : scan_state) (e : engine W),
    (List.length text <= n)%nat ->
    match s with
    | Placeholder (reading_index (Some i))
    | Placeholder (reading_spec (Some i) _ _) => 0 <= i
    | _ => True
    end ->
    0 <= next_index e ->
    Forall in_range (reads e) ->
    fst (brace_scan N funcs values text p s e) <> undefined
    /\ Forall in_range (reads (snd (brace_scan N funcs values text p s e))).
Proof.
  induction n as [| n IH]; intros text p s e Hlen Hs Hn Hr;
    (destruct text as [| c rest];
     [ destruct s; cbn [brace_scan fst snd];
       (split; [discriminate | assumption]) | ]);
    [simpl in Hlen; lia |].
  simpl in Hlen.
  assert (Hemit : forall q k,
             0 <= next_index (emit e q k)
             /\ Forall in_range (reads (emit e q k))).
  { intros q k. destruct (emit_spec e q k) as (_ & -> & ->). auto. }
  assert (Hresolve : forall index spec,
             match index with Some i => 0 <= i | None => True end ->
             fst (match resolve N funcs values index spec e with
                  | (completed, e') =>
                      brace_scan N funcs values rest (p + 1) Literal e'
                  | stopped => stopped
                  end) <> undefined
             /\ Forall in_range
                  (reads (snd (match resolve N funcs values index spec e with
                               | (completed, e') =>
                                   brace_scan N funcs values rest (p + 1)
                                     Literal e'
                               | stopped => stopped
                               end)))).
  { intros index spec Hindex.
    destruct (resolve_safe index spec e Hindex Hn Hr) as (H1 & H2 & H3).
    destruct (resolve N funcs values index spec e) as [st e'].
    cbn [fst snd] in H1, H2, H3.
    destruct st.
    - apply IH; [lia | exact I | assumption | assumption].
    - cbn [fst snd]. split; [discriminate | assumption].
    - now elim H1. }
  cbn [brace_scan]. destruct s as [| [index | index spec_begin spec_size]].
  - destruct (c =? open_brace).
    + destruct rest as [| c' rest'];
        [cbn [fst snd]; split; [discriminate | assumption] |].
      simpl in Hlen.
      destruct (c' =? open_brace).
      * apply IH; [lia | exact I | apply Hemit | apply Hemit].
      * apply IH; [simpl; lia | exact I | assumption | assumption].
    + destruct (c =? close_brace).
      * destruct rest as [| c' rest'];
          [cbn [fst snd]; split; [discriminate | assumption] |].
        simpl in Hlen.
        destruct (c' =? close_brace).
        -- apply IH; [lia | exact I | apply Hemit | apply Hemit].
        -- cbn [fst snd]; split; [discriminate | assumption].
      * apply IH; [lia | exact I | apply Hemit | apply Hemit].
  - destruct (is_digit c) eqn:Hd.
    + apply IH; [lia | | assumption | assumption].
      apply is_digit_value in Hd. destruct index; lia.
    + destruct (c =? colon).
      * apply IH; [lia | | assumption | assumption].
        destruct index; [exact Hs | exact I].
      * destruct (c =? close_brace).
        -- apply Hresolve. destruct index; [exact Hs | exact I].
        -- cbn [fst snd]; split; [discriminate | assumption].
  - destruct (c =? close_brace).
    + apply Hresolve. destruct index; [exact Hs | exact I].
    + apply IH; [lia | | assumption | assumption].
      destruct index; [exact Hs | exact I].
Qed.

End BoundArrays.

(** C4.  A brace-style [format] call with [N] arguments binds arrays of
    length [N + 1].  When the scan of the template of such a call has come
    through a prefix and meets a placeholder (with or without spec text)
    whose index, explicit or taken from the counter, is [N] or more, the
    call ends there as a template fault, in the state the scan had before
    the placeholder: neither array has been read for it, no thunk has run,
    nothing more has been written, and the rest of the template is not
    scanned.  The same holds of the scan from any state, and of the
    resolution of the placeholder alone.  Over a whole run, on any template,
    every read of the arrays is at an index from 0 to [N - 1], and the run
    never ends in [undefined].  On a fixed writer with the two arguments A
    and B: [{5}] is a template fault with no read and nothing written,
    [x{5}y] and [x{5:q}y{}] stop after the x, and [{}{}{}] stops after
    [AB]. *)
Theorem brace_index_out_of_range :
  forall (W : Type) (writer : basic_format_writer W)
         (format_value_builtin :
            W -> builtin_value -> basic_string_view -> memory -> memory * W)
         (out : W) (fmt : basic_string_view) (args : list argument)
         (m : memory),
    let N := Z.of_nat (List.length args) in
    let funcs := funcs_of format_value_builtin args in
    let values := values_of args in
    let r :=
      format format_value_builtin _ brace_engine.format_impl out fmt args m in
    (forall explicit spec e,
        N <= match explicit with Some i => i | None => next_index e end ->
        resolve N funcs values explicit spec e = (template_fault, e))
    /\ fst r <> undefined
    /\ Forall (fun i => 0 <= i < N) (reads (snd r))
    /\ List.length funcs = S (List.length args)
    /\ List.length values = S (List.length args)
    /\ (let r5 := example.format_into_fixed "{5}" [example.A; example.B] in
        fst r5 = template_fault /\ reads (snd r5) = [] /\ output r5 = [])
    /\ (let r5 := example.format_into_fixed "x{5}y" [example.A; example.B] in
        fst r5 = template_fault /\ reads (snd r5) = []
        /\ output r5 = lit "x")
    /\ (forall t1 ds sp rest e1,
          string_view.chars m fmt = t1 ++ placeholder_chars ds sp ++ rest ->
          Forall (fun c => is_digit c = true) ds ->
          match sp with
          | Some t => Forall (fun c => c <> close_brace) t
          | None => True
          end ->
          brace_scan N funcs values t1 (string_view.begin fmt) Literal
            (mk_engine out m 0 []) = (completed, e1) ->
          N <= match explicit_index ds with
               | Some i => i
               | None => next_index e1
               end ->
          r = (template_fault, e1))
    /\ (forall ds sp rest p e,
          Forall (fun c => is_digit c = true) ds ->
          match sp with
          | Some t => Forall (fun c => c <> close_brace) t
          | None => True
          end ->
          N <= match explicit_index ds with
               | Some i => i
               | None => next_index e
               end ->
          brace_scan N funcs values (placeholder_chars ds sp ++ rest) p
            Literal e = (template_fault, e))
    /\ (let r5 :=
          example.format_into_fixed "x{5:q}y{}" [example.A; example.B] in
        fst r5 = template_fault /\ reads (snd r5) = []
        /\ output r5 = lit "x")
    /\ (let r3 := example.format_into_fixed "{}{}{}" [example.A; example.B] in
        fst r3 = template_fault /\ reads (snd r3) = [0; 1]
        /\ output r3 = lit "AB").
Proof.
  intros W writer fvb out fmt args m N funcs values r.
  split; [intros explicit spec e H; now apply resolve_out_of_range |].
  assert (Hsafe : fst r <> undefined
                  /\ Forall (fun i => 0 <= i < N) (reads (snd r))).
  { subst r. unfold format, brace_engine.format_impl, sizeof_pack.
    apply (brace_scan_safe fvb args
             (List.length (string_view.chars m fmt)));
      [apply Nat.le_refl | exact I | cbn [next_index]; lia | constructor]. }
  destruct Hsafe as [Hst Hreads].
  destruct (nth_error_map_snoc (fun a => Some a) None args) as (Hvl & _).
  destruct (nth_error_map_snoc
              (fun a => Some (format_value_thunk fvb (type_of a))) None args)
    as (Hfl & _).
  assert (Hph : forall ds sp rest p e,
             Forall (fun c => is_digit c = true) ds ->
             match sp with
             | Some t => Forall (fun c => c <> close_brace) t
             | None => True
             end ->
             N <= match explicit_index ds with
                  | Some i => i
                  | None => next_index e
                  end ->
             brace_scan N funcs values (placeholder_chars ds sp ++ rest) p
               Literal e = (template_fault, e)).
  { intros ds sp rest p e Hds Hsp Hle.
    rewrite (brace_scan_placeholder N funcs values ds sp rest p e Hds Hsp).
    now rewrite resolve_out_of_range. }
  split; [exact Hst |]. split; [exact Hreads |].
  split; [exact Hfl |]. split; [exact Hvl |].
  split; [repeat split; vm_compute; reflexivity |].
  split; [repeat split; vm_compute; reflexivity |].
  split.
  { intros t1 ds sp rest e1 Htext Hds Hsp Hprefix Hle.
    subst r. unfold format, brace_engine.format_impl, sizeof_pack.
    fold N funcs values. rewrite Htext.
    rewrite (brace_scan_app N funcs values (List.length t1) t1 _ _ _ _ e1
               (Nat.le_refl _) Hprefix).
    now apply Hph. }
  split; [exact Hph |].
  repeat split; vm_compute; reflexivity.
Qed.

Lemma brace_index_out_of_range_witness :
  let funcs := funcs_of example.format_value_builtin [example.A; example.B] in
  let values := values_of [example.A; example.B] in
  let e : engine (basic_fixed_writer 64) :=
    mk_engine (mk_writer 3000 3000) (example.text_memory "{5}") 0 [] in
  let e0 : engine (basic_fixed_writer 64) :=
    mk_engine (mk_writer 3000 3000) (example.text_memory "x{5:q}y{}") 0 [] in
  resolve 2 funcs values (Some 5) (mk_view 1002 0) e = (template_fault, e)
  /\ fst (example.format_into_fixed "{5}" [example.A; example.B]) =
     template_fault
  /\ format example.format_value_builtin _ brace_engine.format_impl
       (mk_writer 3000 3000) (example.template_view "x{5:q}y{}")
       [example.A; example.B] (example.text_memory "x{5:q}y{}") =
     (template_fault, snd (brace_scan 2 funcs values (lit "x") 1000 Literal e0)).
Proof.
  intros funcs values e e0.
  destruct (brace_index_out_of_range (basic_fixed_writer 64) _
              example.format_value_builtin (mk_writer 3000 3000)
              (example.template_view "{5}") [example.A; example.B]
              (example.text_memory "{5}"))
    as (Hfault & _ & _ & _ & _ & Hrun & _).
  destruct (brace_index_out_of_range (basic_fixed_writer 64) _
              example.format_value_builtin (mk_writer 3000 3000)
              (example.template_view "x{5:q}y{}") [example.A; example.B]
              (example.text_memory "x{5:q}y{}"))
    as (_ & _ & _ & _ & _ & _ & _ & Hcall & _).
  split; [| split].
  - apply (Hfault (Some 5) (mk_view 1002 0) e). simpl. lia.
  - exact (proj1 Hrun).
  - apply (Hcall (lit "x") (lit "5") (Some (lit "q")) (lit "y{}")).
    + reflexivity.
    + repeat constructor.
    + repeat constructor; discriminate.
    + reflexivity.
    + vm_compute. discriminate.
Defined.

(** * Further properties of the code of the header *)

(** ** One write, as text *)

Lemma view_chars_length (SizeN : Z) (w : basic_fixed_writer SizeN)
    (m : memory) :
  SizeN <= size_t_modulus -> fixed_writer.inv w ->
  Z.of_nat (List.length (string_view.chars m (fixed_writer.view w))) =
  fixed_writer.size w.
Proof.
  intros HN Hinv. rewrite view_chars_of_writer by assumption.
  rewrite load_chars_length.
  destruct (fixed_writer_size_inv SizeN w HN Hinv) as [-> _].
  unfold fixed_writer.inv in Hinv. lia.
Qed.

Lemma firstn_firstn_app {A : Type} (c : nat) (l r : list A) :
  firstn c (firstn c l ++ r) = firstn c (l ++ r).
Proof.
  destruct (Nat.le_gt_cases (List.length l) c) as [H | H].
  - now rewrite (firstn_all2 (n := c) l) by assumption.
  - rewrite !firstn_app, firstn_firstn, Nat.min_id.
    rewrite length_firstn, Nat.min_l by lia.
    replace (c - c)%nat with 0%nat by lia.
    replace (c - List.length l)%nat with 0%nat by lia.
    reflexivity.
Qed.

(** The text after a write is the old text followed by the new one, cut at
    [SizeN - 1] characters. *)
Lemma write_chars (SizeN : Z) (w : basic_fixed_writer SizeN)
    (str : basic_string_view) (m : memory) :
  1 <= SizeN <= size_t_modulus -> fixed_writer.inv w ->
  0 <= string_view.size str ->
  string_view.chars (fst (fixed_writer.write w str m))
    (fixed_writer.view (snd (fixed_writer.write w str m))) =
  firstn (Z.to_nat (SizeN - 1))
    (string_view.chars m (fixed_writer.view w) ++ string_view.chars m str).
Proof.
  intros HN Hinv Hstr.
  destruct (write_length SizeN w str m HN Hinv) as (Hl & Hb & Hm).
  destruct (fixed_writer_size_inv SizeN w) as [Hsz Hrange];
    [lia | assumption |].
  assert (Hinv' := write_inv SizeN w str m HN Hinv Hstr).
  set (n := Z.min (string_view.size str) (SizeN - fixed_writer.size w - 1))
    in *.
  assert (Hn : 0 <= n <= SizeN - fixed_writer.size w - 1) by (subst n; lia).
  pose proof (view_chars_length SizeN w m (proj2 HN) Hinv) as Hlen.
  rewrite firstn_app.
  rewrite (firstn_all2 (string_view.chars m (fixed_writer.view w)))
    by lia.
  rewrite (view_chars_of_writer SizeN _ _ (proj2 HN) Hinv').
  rewrite (view_chars_of_writer SizeN w m (proj2 HN) Hinv) in *.
  rewrite Hl, Hb.
  replace (Z.to_nat (_last w + n - _buffer w))
    with (Z.to_nat (_last w - _buffer w) + Z.to_nat n)%nat by lia.
  rewrite load_chars_app. f_equal.
  - apply load_chars_ext. intros i Hi. rewrite Hm.
    rewrite store_other by lia. rewrite memcpy_outside by lia. reflexivity.
  - unfold string_view.chars. rewrite firstn_load_chars.
    rewrite load_chars_length.
    replace (Nat.min
               (Z.to_nat (SizeN - 1) - Z.to_nat (_last w - _buffer w))
               (Z.to_nat (string_view.size str)))
      with (Z.to_nat n)
      by (subst n; unfold string_view.size in *; lia).
    apply load_chars_ext. intros i Hi. rewrite Hm.
    rewrite store_other by lia. rewrite memcpy_inside by lia.
    unfold string_view.begin, string_view.data. f_equal. lia.
Qed.

(** A write changes no character outside the array. *)
Lemma write_frame (SizeN : Z) (w : basic_fixed_writer SizeN)
    (str : basic_string_view) (m : memory) (a : pointer) :
  1 <= SizeN <= size_t_modulus -> fixed_writer.inv w ->
  0 <= string_view.size str ->
  a < _buffer w \/ _buffer w + SizeN <= a ->
  fst (fixed_writer.write w str m) a = m a.
Proof.
  intros HN Hinv Hstr Ha.
  destruct (write_length SizeN w str m HN Hinv) as (_ & _ & ->).
  destruct (fixed_writer_size_inv SizeN w) as [Hsz Hrange];
    [lia | assumption |].
  unfold fixed_writer.inv in Hinv.
  rewrite store_other by lia. apply memcpy_outside. lia.
Qed.

Lemma write_terminated (SizeN : Z) (w : basic_fixed_writer SizeN)
    (str : basic_string_view) (m : memory) :
  1 <= SizeN <= size_t_modulus -> fixed_writer.inv w ->
  0 <= string_view.size str ->
  fixed_writer.terminated (fst (fixed_writer.write w str m))
    (snd (fixed_writer.write w str m)).
Proof.
  intros HN Hinv Hstr.
  destruct (write_length SizeN w str m HN Hinv) as (Hl & Hb & Hm).
  assert (Hinv' := write_inv SizeN w str m HN Hinv Hstr).
  destruct (fixed_writer_size_inv SizeN _ (proj2 HN) Hinv') as [Hsz' _].
  unfold fixed_writer.terminated, fixed_writer.c_str.
  rewrite Hsz', Hm, Hl, Hb.
  match goal with
  | |- store _ ?q _ ?r = _ => replace r with q by lia
  end.
  apply store_same.
Qed.

(** ** Sequences of writes *)

Lemma chars_frame (SizeN : Z) (buf : pointer) (m m' : memory)
    (v : basic_string_view) :
  (forall a, a < buf \/ buf + SizeN <= a -> m' a = m a) ->
  0 <= SizeN -> outside_array SizeN buf v ->
  string_view.chars m' v = string_view.chars m v.
Proof.
  intros Hframe HN [Hsz Hout]. unfold string_view.chars.
  apply load_chars_ext. intros i Hi. apply Hframe.
  unfold string_view.end_, string_view.begin, string_view.size in *. lia.
Qed.

Lemma texts_frame (SizeN : Z) (buf : pointer) (m m' : memory)
    (strs : list basic_string_view) :
  (forall a, a < buf \/ buf + SizeN <= a -> m' a = m a) ->
  0 <= SizeN -> Forall (outside_array SizeN buf) strs ->
  texts m' strs = texts m strs.
Proof.
  intros Hframe HN Hall. unfold texts. f_equal.
  induction Hall as [| v strs Hv _ IH]; simpl; [reflexivity |].
  now rewrite IH, (chars_frame SizeN buf m m' v).
Qed.

(** The size after a sequence of writes: the sizes add up until the array
    is full, and stay at [SizeN - 1] from then on.  Once a writer is full
    every later write is dropped whole. *)
Theorem fixed_writer_writes_size :
  forall (SizeN : Z) (strs : list basic_string_view)
         (s : memory * basic_fixed_writer SizeN),
    1 <= SizeN < size_t_modulus ->
    fixed_writer.inv (snd s) ->
    Forall (fun v => 0 <= string_view.size v) strs ->
    fixed_writer.size (snd (write_all strs s)) =
      Z.min (fixed_writer.size (snd s) + total_size strs) (SizeN - 1)
    /\ fixed_writer.inv (snd (write_all strs s)).
Proof.
  intros SizeN strs s HN Hinv Hall. revert s Hinv.
  assert (HN' : 1 <= SizeN <= size_t_modulus) by lia.
  induction Hall as [| v strs Hv Hall IH]; intros s Hinv.
  - cbn [write_all fold_left total_size fold_right].
    destruct (fixed_writer_size_inv SizeN (snd s)) as [_ Hr];
      [lia | assumption |].
    split; [lia | assumption].
  - cbn [write_all fold_left total_size fold_right].
    set (s1 := fixed_writer.write (snd s) v (fst s)).
    assert (Hinv1 : fixed_writer.inv (snd s1))
      by (apply write_inv; assumption).
    destruct (IH s1 Hinv1) as [Hsize Hinv'].
    unfold write_all in Hsize, Hinv'.
    split; [| exact Hinv'].
    rewrite Hsize.
    destruct (write_length SizeN (snd s) v (fst s) HN' Hinv) as (Hl & Hb & _).
    fold s1 in Hl, Hb.
    destruct (fixed_writer_size_inv SizeN (snd s)) as [Hsz Hr];
      [lia | assumption |].
    destruct (fixed_writer_size_inv SizeN (snd s1)) as [Hsz1 Hr1];
      [lia | assumption |].
    assert (Ht : 0 <= fold_right (fun v acc => string_view.size v + acc) 0 strs).
    { clear -Hall. induction Hall as [| u us Hu _ IHu]; simpl; lia. }
    unfold total_size. lia.
Qed.

Lemma fixed_writer_writes_size_witness :
  let m0 := store_zstr (store_zstr (fun _ => 7) 1000 "abc") 1010 "defgh" in
  let s := fixed_writer.construct 8 3000 m0 in
  fixed_writer.size
    (snd (write_all [mk_view 1000 3; mk_view 1010 5; mk_view 1000 3] s)) = 7.
Proof.
  intros m0 s.
  assert (HN : 1 <= 8 < size_t_modulus) by (unfold size_t_modulus; lia).
  assert (Hinv : fixed_writer.inv (snd s))
    by (unfold fixed_writer.inv; simpl; lia).
  assert (Hall : Forall (fun v => 0 <= string_view.size v)
                   [mk_view 1000 3; mk_view 1010 5; mk_view 1000 3])
    by (repeat constructor; simpl; lia).
  exact (proj1 (fixed_writer_writes_size 8 _ s HN Hinv Hall)).
Defined.

(** The text after a sequence of writes whose sources lie outside the array
    is the old text followed by the texts written, in order, cut at
    [SizeN - 1] characters: writing piece by piece gives what writing the
    concatenation would. *)
Theorem fixed_writer_writes_text :
  forall (SizeN : Z) (strs : list basic_string_view)
         (s : memory * basic_fixed_writer SizeN),
    1 <= SizeN < size_t_modulus ->
    fixed_writer.inv (snd s) ->
    Forall (outside_array SizeN (_buffer (snd s))) strs ->
    string_view.chars (fst (write_all strs s))
      (fixed_writer.view (snd (write_all strs s))) =
    firstn (Z.to_nat (SizeN - 1))
      (string_view.chars (fst s) (fixed_writer.view (snd s))
       ++ texts (fst s) strs).
Proof.
  intros SizeN strs s HN Hinv Hall. revert s Hinv Hall.
  assert (HN' : 1 <= SizeN <= size_t_modulus) by lia.
  induction strs as [| v strs IH]; intros s Hinv Hall.
  - cbn [write_all fold_left texts map List.concat]. rewrite app_nil_r.
    rewrite firstn_all2; [reflexivity |].
    pose proof (view_chars_length SizeN (snd s) (fst s) (proj2 HN') Hinv).
    destruct (fixed_writer_size_inv SizeN (snd s)) as [_ Hr];
      [lia | assumption |].
    lia.
  - inversion Hall as [| v' strs' Hv Hrest]; subst v' strs'.
    cbn [write_all fold_left].
    set (s1 := fixed_writer.write (snd s) v (fst s)).
    assert (Hinv1 : fixed_writer.inv (snd s1))
      by (apply write_inv; [assumption | assumption | apply Hv]).
    destruct (write_length SizeN (snd s) v (fst s) HN' Hinv) as (_ & Hb & _).
    fold s1 in Hb.
    assert (Hrest1 : Forall (outside_array SizeN (_buffer (snd s1))) strs)
      by now rewrite Hb.
    specialize (IH s1 Hinv1 Hrest1). unfold write_all in IH. rewrite IH.
    assert (Hframe : forall a,
               a < _buffer (snd s) \/ _buffer (snd s) + SizeN <= a ->
               fst s1 a = fst s a).
    { intros a Ha. apply write_frame; [assumption | assumption | apply Hv
                                       | assumption]. }
    rewrite (texts_frame SizeN (_buffer (snd s)) (fst s) (fst s1) strs)
      by (assumption || lia).
    subst s1. rewrite write_chars by (assumption || apply Hv).
    rewrite firstn_firstn_app.
    unfold texts. cbn [map List.concat]. now rewrite app_assoc.
Qed.

Lemma fixed_writer_writes_text_witness :
  let m0 := store_zstr (store_zstr (fun _ => 7) 1000 "abc") 1010 "defgh" in
  let s := fixed_writer.construct 8 3000 m0 in
  let s' := write_all [mk_view 1000 3; mk_view 1010 5; mk_view 1000 3] s in
  string_view.chars (fst s') (fixed_writer.view (snd s')) = lit "abcdefg".
Proof.
  intros m0 s s'.
  assert (HN : 1 <= 8 < size_t_modulus) by (unfold size_t_modulus; lia).
  assert (Hinv : fixed_writer.inv (snd s))
    by (unfold fixed_writer.inv; simpl; lia).
  assert (Hall : Forall (outside_array 8 (_buffer (snd s)))
                   [mk_view 1000 3; mk_view 1010 5; mk_view 1000 3]).
  { repeat (apply Forall_cons;
            [unfold outside_array, string_view.size, string_view.end_,
               string_view.begin; simpl; lia |]).
    apply Forall_nil. }
  exact (fixed_writer_writes_text 8 _ s HN Hinv Hall).
Defined.

(** ** What holds in every state of a writer *)

(** A property of the state that construction establishes and every
    well-formed operation keeps holds after every run. *)
Lemma run_induction (SizeN : Z) (buf : pointer) (m : memory)
    (P : memory * basic_fixed_writer SizeN -> Prop) :
  P (fixed_writer.construct SizeN buf m) ->
  (forall o s, fixed_writer.op_wf o -> P s -> P (fixed_writer.apply o s)) ->
  forall ops, Forall fixed_writer.op_wf ops ->
              P (fixed_writer.run SizeN buf m ops).
Proof.
  intros H0 Hstep ops Hops. unfold fixed_writer.run.
  revert H0. generalize (fixed_writer.construct SizeN buf m).
  induction Hops as [| o ops Ho _ IH]; intros s Hs; simpl; [exact Hs |].
  apply IH. now apply Hstep.
Qed.

(** The scan for the terminator stops at a null character at offset [k], or
    before. *)
Lemma char_traits_length_bounded (m : memory) (k : nat) :
  forall (s : pointer) (fuel : nat),
    m (s + Z.of_nat k) = 0 -> (k < fuel)%nat ->
    exists n, char_traits_length fuel m s = Some n /\ 0 <= n <= Z.of_nat k.
Proof.
  induction k as [| k IH]; intros s fuel Hz Hfuel;
    (destruct fuel as [| fuel]; [lia |]); cbn [char_traits_length].
  - change (Z.of_nat 0) with 0 in *. rewrite Z.add_0_r in Hz. rewrite Hz.
    exists 0. split; [reflexivity | lia].
  - destruct (m s =? 0); [exists 0; split; [reflexivity | lia] |].
    destruct (IH (s + 1) fuel) as (n & Hn & Hr); [| lia |].
    + replace (s + 1 + Z.of_nat k) with (s + Z.of_nat (S k)) by lia.
      exact Hz.
    + rewrite Hn. exists (Z.succ n). split; [reflexivity | lia].
Qed.

(** In every state of a writer, also after a [clear], the string at
    [c_str()] ends inside the array: the scan from [c_str()] finds a null
    character at an offset of at most [SizeN - 1], so reading the C string
    never leaves the array. *)
Theorem fixed_writer_c_str_ends_in_array :
  forall (SizeN : Z) (buf : pointer) (m : memory)
         (ops : list fixed_writer.op),
    1 <= SizeN < size_t_modulus ->
    Forall fixed_writer.op_wf ops ->
    exists n,
      char_traits_length (Z.to_nat SizeN)
        (fst (fixed_writer.run SizeN buf m ops))
        (fixed_writer.c_str (snd (fixed_writer.run SizeN buf m ops))) =
      Some n
      /\ 0 <= n <= SizeN - 1.
Proof.
  intros SizeN buf m ops HN Hops.
  assert (HN' : 1 <= SizeN <= size_t_modulus) by lia.
  assert (H : fixed_writer.inv (snd (fixed_writer.run SizeN buf m ops))
              /\ exists k,
                   fixed_writer.size (snd (fixed_writer.run SizeN buf m ops))
                     <= k <= SizeN - 1
                   /\ fst (fixed_writer.run SizeN buf m ops)
                        (_buffer (snd (fixed_writer.run SizeN buf m ops)) + k)
                      = 0).
  { apply (run_induction SizeN buf m
             (fun s => fixed_writer.inv (snd s)
                       /\ exists k,
                            fixed_writer.size (snd s) <= k <= SizeN - 1
                            /\ fst s (_buffer (snd s) + k) = 0));
      [| | assumption].
    - split; [apply construct_inv; lia |]. exists 0.
      pose proof (construct_terminated SizeN buf m (proj1 HN)) as Ht.
      unfold fixed_writer.terminated, fixed_writer.c_str in Ht.
      assert (Hsz : fixed_writer.size
                      (snd (fixed_writer.construct SizeN buf m)) = 0).
      { unfold fixed_writer.size.
        cbn [fixed_writer.construct snd _last _buffer].
        now rewrite Z.sub_diag. }
      rewrite Hsz in Ht |- *. split; [lia | exact Ht].
    - intros o s Ho (Hinv & k & Hk & Hz).
      destruct o as [str |]; cbn [fixed_writer.apply].
      + assert (Hinv' := write_inv SizeN (snd s) str (fst s) HN' Hinv Ho).
        split; [exact Hinv' |].
        exists (fixed_writer.size (snd (fixed_writer.write (snd s) str (fst s)))).
        destruct (fixed_writer_size_inv SizeN _ (proj2 HN') Hinv') as [_ Hr].
        split; [lia |].
        exact (write_terminated SizeN (snd s) str (fst s) HN' Hinv Ho).
      + split; [apply (clear_inv SizeN (snd s) (fst s)); lia |].
        exists k. destruct (clear_terminated_iff SizeN (snd s) (fst s))
          as (Hm & Hsz & _).
        rewrite Hsz. cbn [fixed_writer.clear fst snd _buffer] in *.
        destruct (fixed_writer_size_inv SizeN (snd s) (proj2 HN') Hinv)
          as [_ Hr].
        split; [lia | exact Hz]. }
  destruct H as (Hinv & k & Hk & Hz).
  destruct (fixed_writer_size_inv SizeN _ (proj2 HN') Hinv) as [_ Hr].
  destruct (char_traits_length_bounded
              (fst (fixed_writer.run SizeN buf m ops)) (Z.to_nat k)
              (fixed_writer.c_str (snd (fixed_writer.run SizeN buf m ops)))
              (Z.to_nat SizeN)) as (n & Hn & Hb).
  - rewrite Z2Nat.id by lia. exact Hz.
  - lia.
  - exists n. split; [exact Hn | lia].
Qed.

Lemma fixed_writer_c_str_ends_in_array_witness :
  let m0 := store_zstr (fun _ => 7) 1000 "abc" in
  let s :=
    fixed_writer.run 4 3000 m0
      [fixed_writer.op_write (mk_view 1000 3); fixed_writer.op_clear] in
  exists n,
    char_traits_length 4 (fst s) (fixed_writer.c_str (snd s)) = Some n
    /\ 0 <= n <= 3.
Proof.
  intros m0 s.
  assert (HN : 1 <= 4 < size_t_modulus) by (unfold size_t_modulus; lia).
  assert (Hops : Forall fixed_writer.op_wf
                   [fixed_writer.op_write (mk_view 1000 3);
                    fixed_writer.op_clear])
    by (repeat constructor; simpl; lia).
  exact (fixed_writer_c_str_ends_in_array 4 3000 m0 _ HN Hops).
Defined.

(** ** [c_str()] and [view()] *)

(** When the text is terminated and holds no null character, the view built
    from [c_str()] by the scanning constructor is [view()]: same pointer,
    same length. *)
Theorem fixed_writer_c_str_view_round_trip :
  forall (SizeN : Z) (w : basic_fixed_writer SizeN) (m : memory)
         (fuel : nat),
    1 <= SizeN < size_t_modulus ->
    fixed_writer.inv w ->
    fixed_writer.terminated m w ->
    (forall i, 0 <= i < fixed_writer.size w ->
               m (fixed_writer.c_str w + i) <> 0) ->
    (Z.to_nat (fixed_writer.size w) < fuel)%nat ->
    string_view.of_zstr fuel m (fixed_writer.c_str w) =
    Some (fixed_writer.view w).
Proof.
  intros SizeN w m fuel HN Hinv Hterm Hnz Hfuel.
  destruct (fixed_writer_size_inv SizeN w) as [Hsz Hr]; [lia | assumption |].
  unfold string_view.of_zstr.
  rewrite (char_traits_length_first_null m (Z.to_nat (fixed_writer.size w))).
  - rewrite Z2Nat.id by lia. reflexivity.
  - intros i Hi. apply Hnz. lia.
  - rewrite Z2Nat.id by lia. exact Hterm.
  - exact Hfuel.
Qed.

Lemma fixed_writer_c_str_view_round_trip_witness :
  let m0 := store_zstr (fun _ => 7) 1000 "hello" in
  let s := fixed_writer.construct 4 3000 m0 in
  let s' := fixed_writer.write (snd s) (mk_view 1000 5) (fst s) in
  string_view.of_zstr 4 (fst s') (fixed_writer.c_str (snd s')) =
  Some (fixed_writer.view (snd s')).
Proof.
  intros m0 s s'.
  assert (HN : 1 <= 4 < size_t_modulus) by (unfold size_t_modulus; lia).
  apply (fixed_writer_c_str_view_round_trip 4 (snd s') (fst s') 4%nat HN).
  - unfold fixed_writer.inv. simpl. lia.
  - reflexivity.
  - intros i Hi.
    assert (Hc : i = 0 \/ i = 1 \/ i = 2)
      by (change (fixed_writer.size (snd s')) with 3 in Hi; lia).
    destruct Hc as [-> | [-> | ->]]; vm_compute; discriminate.
  - vm_compute. lia.
Defined.

(** Appending a writer's own [view()] to it: the characters copied lie
    before [_last], so the source and the destination of the copy never
    overlap, and the text becomes the old text twice, cut at [SizeN - 1]
    characters. *)
Theorem fixed_writer_write_own_view :
  forall (SizeN : Z) (w : basic_fixed_writer SizeN) (m : memory),
    1 <= SizeN < size_t_modulus ->
    fixed_writer.inv w ->
    let v := fixed_writer.view w in
    let n := Z.min (string_view.size v) (SizeN - fixed_writer.size w - 1) in
    string_view.data v + n <= _last w
    /\ string_view.chars (fst (fixed_writer.write w v m))
         (fixed_writer.view (snd (fixed_writer.write w v m))) =
       firstn (Z.to_nat (SizeN - 1))
         (string_view.chars m v ++ string_view.chars m v).
Proof.
  intros SizeN w m HN Hinv v n.
  assert (HN' : 1 <= SizeN <= size_t_modulus) by lia.
  destruct (fixed_writer_size_inv SizeN w) as [Hsz Hr]; [lia | assumption |].
  assert (Hv : string_view.size v = fixed_writer.size w) by reflexivity.
  split.
  - subst n. rewrite Hv. change (string_view.data v) with (_buffer w). lia.
  - apply write_chars; [assumption | assumption | lia].
Qed.

Lemma fixed_writer_write_own_view_witness :
  let m0 := store_zstr (fun _ => 7) 1000 "abc" in
  let s := fixed_writer.construct 8 3000 m0 in
  let s1 := fixed_writer.write (snd s) (mk_view 1000 3) (fst s) in
  let s2 :=
    fixed_writer.write (snd s1) (fixed_writer.view (snd s1)) (fst s1) in
  string_view.chars (fst s2) (fixed_writer.view (snd s2)) = lit "abcabc".
Proof.
  intros m0 s s1 s2.
  assert (HN : 1 <= 8 < size_t_modulus) by (unfold size_t_modulus; lia).
  assert (Hinv : fixed_writer.inv (snd s1))
    by (unfold fixed_writer.inv; simpl; lia).
  exact (proj2 (fixed_writer_write_own_view 8 (snd s1) (fst s1) HN Hinv)).
Defined.

(** A [clear] followed by a write: whatever the writer held, the text is
    then the one written, cut at [SizeN - 1] characters, and it is terminated
    again. *)
Theorem fixed_writer_clear_then_write :
  forall (SizeN : Z) (w : basic_fixed_writer SizeN)
         (str : basic_string_view) (m : memory),
    1 <= SizeN < size_t_modulus ->
    0 <= string_view.size str ->
    let s1 := fixed_writer.clear w m in
    let s2 := fixed_writer.write (snd s1) str (fst s1) in
    string_view.chars (fst s2) (fixed_writer.view (snd s2)) =
      firstn (Z.to_nat (SizeN - 1)) (string_view.chars m str)
    /\ fixed_writer.size (snd s2) = Z.min (string_view.size str) (SizeN - 1)
    /\ fixed_writer.terminated (fst s2) (snd s2).
Proof.
  intros SizeN w str m HN Hstr s1 s2.
  assert (HN' : 1 <= SizeN <= size_t_modulus) by lia.
  assert (Hinv1 : fixed_writer.inv (snd s1))
    by (apply (clear_inv SizeN w m); lia).
  destruct (clear_terminated_iff SizeN w m) as (Hm & Hsz & _).
  fold s1 in Hm, Hsz.
  split; [| split].
  - subst s2. rewrite write_chars by assumption. rewrite Hm.
    replace (string_view.chars m (fixed_writer.view (snd s1)))
      with (@nil CharT); [reflexivity |].
    unfold string_view.chars.
    change (string_view.size (fixed_writer.view (snd s1)))
      with (fixed_writer.size (snd s1)).
    now rewrite Hsz.
  - destruct (write_length SizeN (snd s1) str (fst s1) HN' Hinv1)
      as (Hl & Hb & _).
    fold s2 in Hl, Hb.
    assert (Hinv2 : fixed_writer.inv (snd s2)) by now apply write_inv.
    destruct (fixed_writer_size_inv SizeN (snd s2)) as [Hsz2 _];
      [lia | assumption |].
    destruct (fixed_writer_size_inv SizeN (snd s1)) as [Hsz1 _];
      [lia | assumption |].
    lia.
  - now apply write_terminated.
Qed.

Lemma fixed_writer_clear_then_write_witness :
  let m0 := store_zstr (store_zstr (fun _ => 7) 1000 "abc") 1010 "xy" in
  let s := fixed_writer.construct 4 3000 m0 in
  let s0 := fixed_writer.write (snd s) (mk_view 1000 3) (fst s) in
  let s1 := fixed_writer.clear (snd s0) (fst s0) in
  let s2 := fixed_writer.write (snd s1) (mk_view 1010 2) (fst s1) in
  string_view.chars (fst s2) (fixed_writer.view (snd s2)) = lit "xy"
  /\ fst s2 (fixed_writer.c_str (snd s2) + 2) = 0.
Proof.
  intros m0 s s0 s1 s2.
  assert (HN : 1 <= 4 < size_t_modulus) by (unfold size_t_modulus; lia).
  assert (Hstr : 0 <= string_view.size (mk_view 1010 2)) by (simpl; lia).
  destruct (fixed_writer_clear_then_write 4 (snd s0) (mk_view 1010 2)
              (fst s0) HN Hstr) as (Htext & _ & Hterm).
  split; [exact Htext | exact Hterm].
Defined.

(** ** Views *)

(** The pointer-pair constructor undoes [begin()] and [end()]: a view whose
    size is a [size_t] is the view of its own range. *)
Theorem string_view_range_round_trip :
  forall v : basic_string_view,
    0 <= string_view.size v < size_t_modulus ->
    string_view.of_range (string_view.begin v) (string_view.end_ v) = v.
Proof.
  intros [b n] H. unfold string_view.of_range, string_view.begin,
    string_view.end_, string_view.size in *. cbn [_begin _size] in *.
  replace (b + n - b) with n by lia.
  now rewrite to_size_t_small.
Qed.

Lemma string_view_range_round_trip_witness :
  string_view.of_range (string_view.begin (mk_view 1000 5))
    (string_view.end_ (mk_view 1000 5)) = mk_view 1000 5.
Proof.
  apply (string_view_range_round_trip (mk_view 1000 5)).
  unfold size_t_modulus. simpl. lia.
Defined.

(** The pointer-pair constructor does not check the order of its arguments.
    A pair is empty exactly when the two pointers are equal; a reversed pair
    gives a view that is not empty, of size [2^64 - (first - last)]. *)
Theorem string_view_reversed_range :
  forall first last : pointer,
    - size_t_modulus < last - first < size_t_modulus ->
    (string_view.empty (string_view.of_range first last) = true <->
     first = last)
    /\ (last < first ->
        string_view.size (string_view.of_range first last) =
        size_t_modulus - (first - last)).
Proof.
  intros first last H.
  unfold string_view.empty, string_view.size, string_view.of_range,
    to_size_t. cbn [_size].
  assert (Hpos : 0 < size_t_modulus) by (unfold size_t_modulus; lia).
  assert (Hrev : last < first ->
                 (last - first) mod size_t_modulus =
                 size_t_modulus - (first - last)).
  { intros Hlt. symmetry.
    apply (Z.mod_unique_pos _ _ (-1)); lia. }
  split; [| exact Hrev].
  rewrite Z.eqb_eq. split.
  - intros H0. destruct (Z.lt_trichotomy last first) as [Hlt | [-> | Hgt]].
    + rewrite Hrev in H0 by assumption. lia.
    + reflexivity.
    + rewrite Z.mod_small in H0 by lia. lia.
  - intros ->. now rewrite Z.sub_diag.
Qed.

Lemma string_view_reversed_range_witness :
  string_view.size (string_view.of_range 1005 1000) = size_t_modulus - 5.
Proof.
  assert (H : - size_t_modulus < 1000 - 1005 < size_t_modulus)
    by (unfold size_t_modulus; lia).
  apply (proj2 (string_view_reversed_range 1005 1000 H)). lia.
Defined.

Lemma char_traits_length_sound (fuel : nat) :
  forall (m : memory) (s : pointer) (n : Z),
    char_traits_length fuel m s = Some n ->
    0 <= n < Z.of_nat fuel
    /\ m (s + n) = 0
    /\ forall i, 0 <= i < n -> m (s + i) <> 0.
Proof.
  induction fuel as [| fuel IH]; intros m s n H; [discriminate |].
  cbn [char_traits_length] in H.
  destruct (m s =? 0) eqn:E.
  - injection H as <-. apply Z.eqb_eq in E. rewrite Z.add_0_r.
    split; [lia |]. split; [exact E |]. intros i Hi. lia.
  - apply Z.eqb_neq in E.
    destruct (char_traits_length fuel m (s + 1)) as [k |] eqn:Hk;
      [| discriminate].
    injection H as <-. destruct (IH m (s + 1) k Hk) as (Hr & Hz & Hnz).
    split; [lia |]. split.
    + replace (s + Z.succ k) with (s + 1 + k) by lia. exact Hz.
    + intros i Hi. destruct (Z.eq_dec i 0) as [-> | Hne].
      * now rewrite Z.add_0_r.
      * replace (s + i) with (s + 1 + (i - 1)) by lia. apply Hnz. lia.
Qed.

(** What the scanning constructor returns, when it returns a view: the view
    starts at the pointer given, the character at its [end()] is null and no
    character of the view is; the scan has read fewer characters than its
    fuel, and more fuel gives the same view. *)
Theorem string_view_of_zstr_sound :
  forall (fuel : nat) (m : memory) (zstr : pointer) (v : basic_string_view),
    string_view.of_zstr fuel m zstr = Some v ->
    string_view.data v = zstr
    /\ 0 <= string_view.size v < Z.of_nat fuel
    /\ m (string_view.end_ v) = 0
    /\ (forall i, 0 <= i < string_view.size v -> m (zstr + i) <> 0)
    /\ (forall fuel', (fuel <= fuel')%nat ->
                      string_view.of_zstr fuel' m zstr = Some v).
Proof.
  intros fuel m zstr v H. unfold string_view.of_zstr in H.
  destruct (char_traits_length fuel m zstr) as [n |] eqn:Hn; [| discriminate].
  injection H as <-.
  destruct (char_traits_length_sound fuel m zstr n Hn) as (Hr & Hz & Hnz).
  unfold string_view.data, string_view.size, string_view.end_.
  cbn [_begin _size].
  repeat split; try assumption; try lia.
  intros fuel' Hle. unfold string_view.of_zstr.
  rewrite (char_traits_length_first_null m (Z.to_nat n) zstr fuel').
  - now rewrite Z2Nat.id by lia.
  - intros i Hi. apply Hnz. lia.
  - rewrite Z2Nat.id by lia. exact Hz.
  - lia.
Qed.

Lemma string_view_of_zstr_sound_witness :
  let m := store_zstr (fun _ => 7) 1000 "hello" in
  m (string_view.end_ (mk_view 1000 5)) = 0
  /\ string_view.of_zstr 9 m 1000 = Some (mk_view 1000 5).
Proof.
  intros m.
  destruct (string_view_of_zstr_sound 6 m 1000 (mk_view 1000 5) eq_refl)
    as (_ & _ & Hz & _ & Hfuel).
  split; [exact Hz |].
  apply (Hfuel 9%nat). lia.
Defined.

(** ** The bound thunks *)

(** For each argument of a call, the thunk [format] and [printf] put in its
    slot, applied to the address they put in the same slot, is the call of
    [format_value] on that argument: binding the pack and calling through
    the arrays selects, for every argument, the overload of its own type. *)
Theorem bound_thunk_dispatch :
  forall (W : Type)
         (format_value_builtin :
            W -> builtin_value -> basic_string_view -> memory -> memory * W)
         (args : list argument) (i : nat) (a : argument),
    nth_error args i = Some a ->
    exists thunk,
      nth_error (funcs_of format_value_builtin args) i = Some (Some thunk)
      /\ nth_error (values_of args) i = Some (Some a)
      /\ forall out spec m,
           thunk out (Some a) spec m =
           format_value format_value_builtin out a spec m.
Proof.
  intros W fvb args i a Ha.
  destruct (nth_error_map_snoc (fun a => Some a) None args)
    as (_ & _ & _ & Hv).
  destruct (nth_error_map_snoc
              (fun a => Some (format_value_thunk fvb (type_of a))) None args)
    as (_ & _ & _ & Hf).
  exists (format_value_thunk fvb (type_of a)).
  split; [now apply Hf |]. split; [now apply Hv |].
  intros out spec m. apply format_value_thunk_own_type.
Qed.

Lemma bound_thunk_dispatch_witness :
  let args := [example.A; enum_arg "colour" (underlying_int signed_int) 2] in
  exists thunk : BasicFormatterThunk (basic_fixed_writer 64),
    nth_error (funcs_of example.format_value_builtin args) 1 =
      Some (Some thunk)
    /\ nth_error (values_of args) 1 =
       Some (Some (enum_arg "colour" (underlying_int signed_int) 2))
    /\ forall out spec m,
         thunk out (Some (enum_arg "colour" (underlying_int signed_int) 2))
           spec m =
         format_value example.format_value_builtin out
           (enum_arg "colour" (underlying_int signed_int) 2) spec m.
Proof.
  intros args.
  exact (bound_thunk_dispatch (basic_fixed_writer 64)
           example.format_value_builtin args 1%nat _ eq_refl).
Defined.
